(** * Label synchronisation ([spine_cicd_actions/sync_labels.py])

    A shallow embedding of the label-sync script: the reconciler
    [sync_labels_to_repo], the source reader [get_labels], the target
    enumerator [load_repos] and the orchestrator [main], over an explicit
    model of the GitHub remote, of standard output and of Python's
    exceptions. *)

From Stdlib Require Import ZArith.
From stdpp Require Import base strings list gmap pretty.

Open Scope string_scope.
Open Scope list_scope.
Set Warnings "-register-all".

(** ** Python values

    The values [yaml.safe_load] hands to [load_repos]: null, booleans,
    integers, strings, sequences and mappings (a mapping keeps its entries
    in document order, one entry per key).  [VOther] stands for the
    remaining scalars (floats, timestamps), of which the script only ever
    needs the text. *)
Inductive PyVal : Type :=
| VNone
| VBool (b : bool)
| VInt (z : Z)
| VStr (s : string)
| VList (items : list PyVal)
| VDict (entries : list (PyVal * PyVal))
| VOther (text : string).

(** ** Labels *)

(** The dict built by [get_labels]: keys "name", "color", "description". *)
Record Label : Type := { name : string; color : string; description : string }.

(** A label object of the remote API; its description may be [None]. *)
Record GhLabel : Type :=
  { label_name : string; label_color : string; label_description : option string }.

(** ** Exceptions *)

(** [e.data], the decoded body of the error response: a dict, of which
    the script reads the key "message" (absent or present), or [None],
    which is what PyGithub gives for a response without a body.  A body
    that is JSON but no object has no [get] either; it is not told apart
    from [None] here. *)
Inductive ErrorData : Type :=
| DataDict (message : option string)
| DataNone.

(** [GithubException]: [e.status], [e.data] and [str(e)]. *)
Record GithubException : Type :=
  { status : Z; data : ErrorData; str_e : string }.

Inductive Exn : Type :=
| GithubExc (e : GithubException)
| AttributeError
| TypeError
| YAMLError
| FileNotFoundError
| SystemExit (code : Z).

Inductive Result (A : Type) : Type :=
| Ok (a : A)
| Raise (e : Exn).
Arguments Ok {A} a.
Arguments Raise {A} e.

(** ** The remote *)

(** A repository as the server holds it. *)
Record GhRepo : Type :=
  { gr_full_name : string; gr_organization : option string; gr_labels : list GhLabel }.

(** The [Repository] object handed out by [Github.get_repo]: the attributes
    the script reads, and the address its methods send requests to. *)
Record Repository : Type :=
  { url : string; full_name : string; organization : option string }.

(** Every request the client sends.  [ReqCreateLabel] is the only one that
    changes the remote. *)
Inductive Request : Type :=
| ReqGetRepo (full_name_or_id : string)
| ReqGetLabels (repo_url : string)
| ReqCreateLabel (repo_url : string) (lname lcolor ldescription : string).

Definition is_create (r : Request) : bool :=
  match r with ReqCreateLabel _ _ _ _ => true | _ => false end.

(** ** Standard output: one constructor per [print] of the script *)
Inductive Line : Type :=
| LRule (leading_newline : bool)
| LSyncingTo (repo_full_name : string)
| LAlreadyExists (label : string)
| LWouldCreate (label : string)
| LCreated (label : string)
| LCreateFailed (label : string) (message : string)
| LSummaryFor (repo_full_name : string)
| LCreatedCount (n : nat)
| LSkippedCount (n : nat)
| LErrorCount (n : nat)
| LTokenNotSet
| LRepositoryNotSet
| LSourceRepository (repo_full_name : string)
| LOrganization (org : string)
| LSourceAccessFailed (repo : string) (e : string)
| LFetching
| LFound (n : nat)
| LReposFileNotFound
| LDownstreamCount (n : nat)
| LDownstreamItem (repo : string)
| LTargetAccessFailed (repo : string) (e : string)
| LFinalSummary
| LTotalCreated (n : nat)
| LTotalSkipped (n : nat)
| LTotalErrors (n : nat).

Definition nl : string := String (Ascii.ascii_of_nat 10) EmptyString.
Definition dq : string := String (Ascii.ascii_of_nat 34) EmptyString.

Fixpoint str_repeat (s : string) (n : nat) : string :=
  match n with 0 => EmptyString | S k => s +:+ str_repeat s k end.

(** The text each [print] writes (without the final newline). *)
Definition render (l : Line) : string :=
  match l with
  | LRule b => (if b then nl else EmptyString) +:+ str_repeat "=" 60
  | LSyncingTo r => "Syncing labels to: " +:+ r
  | LAlreadyExists n => "  ✓ Label already exists: " +:+ n
  | LWouldCreate n => "  [DRY RUN] Would create label: " +:+ n
  | LCreated n => "  ✓ Created label: " +:+ n
  | LCreateFailed n m => "  ✗ Failed to create label '" +:+ n +:+ "': " +:+ m
  | LSummaryFor r => nl +:+ "Summary for " +:+ r +:+ ":"
  | LCreatedCount n => "  Created: " +:+ pretty n
  | LSkippedCount n => "  Skipped (already exists): " +:+ pretty n
  | LErrorCount n => "  Errors: " +:+ pretty n
  | LTokenNotSet => "Error: GITHUB_TOKEN environment variable is not set"
  | LRepositoryNotSet => "Error: GITHUB_REPOSITORY environment variable is not set"
  | LSourceRepository r => "Source repository: " +:+ r
  | LOrganization o => "Organization: " +:+ o
  | LSourceAccessFailed r e => "Error: Failed to access repository " +:+ r +:+ ": " +:+ e
  | LFetching => nl +:+ "Fetching labels from source repository..."
  | LFound n => "Found " +:+ pretty n +:+ " labels in source repository"
  | LReposFileNotFound => "Error: repos.yaml not found"
  | LDownstreamCount n => nl +:+ "Downstream repositories to sync: " +:+ pretty n
  | LDownstreamItem r => "  - " +:+ r
  | LTargetAccessFailed r e =>
      nl +:+ "✗ Error: Failed to access repository " +:+ r +:+ ": " +:+ e
  | LFinalSummary => "FINAL SUMMARY"
  | LTotalCreated n => "Total labels created: " +:+ pretty n
  | LTotalSkipped n => "Total labels skipped: " +:+ pretty n
  | LTotalErrors n => "Total errors: " +:+ pretty n
  end.

(** ** The world the script runs in

    [gh_repos] is the state of the server, keyed by the address of a
    repository.  [gh_faults] schedules the answers of the remote: every
    request takes the next entry, [Some e] makes that request fail with
    the [GithubException] [e] (no access, rate limit, validation error,
    an error of the server or of a gateway), [None] or an exhausted
    schedule lets the server answer.  A failure of the network itself,
    which reaches the script as an exception of another class, is not
    part of this model.  [gh_requests] and [stdout] record, in order,
    the requests sent and the lines printed. *)
Record World : Type :=
  { gh_repos : gmap string GhRepo;
    gh_faults : list (option GithubException);
    gh_requests : list Request;
    stdout : list Line }.

(** ** State and exception monad *)
Definition M (A : Type) : Type := World → Result A * World.

Definition ret {A} (a : A) : M A := λ w, (Ok a, w).

Definition raise {A} (e : Exn) : M A := λ w, (Raise e, w).

Definition bind {A B} (m : M A) (k : A → M B) : M B := λ w,
  match m w with
  | (Ok a, w') => k a w'
  | (Raise e, w') => (Raise e, w')
  end.

Declare Scope py_scope.
Delimit Scope py_scope with py.
Notation "'let*' x ':=' m 'in' k" := (bind m (λ x, k))
  (at level 10, x pattern, m at level 100, k at level 200) : py_scope.
Notation "m ;;; k" := (bind m (λ _, k))
  (at level 100, right associativity) : py_scope.
Open Scope py_scope.

(** [try: body except GithubException as e: handler e]: any other
    exception passes through. *)
Definition try_except {A} (body : M A) (handler : GithubException → M A) : M A := λ w,
  match body w with
  | (Raise (GithubExc e), w') => handler e w'
  | r => r
  end.

(** *** Updates of the world *)

(** Lines appended to standard output. *)
Definition emit (out : list Line) (w : World) : World :=
  {| gh_repos := gh_repos w; gh_faults := gh_faults w;
     gh_requests := gh_requests w; stdout := stdout w ++ out |}.

(** A request goes out: it is recorded and uses up one scheduled answer. *)
Definition sent (q : Request) (w : World) : World :=
  {| gh_repos := gh_repos w; gh_faults := tail (gh_faults w);
     gh_requests := gh_requests w ++ [q]; stdout := stdout w |}.

(** The server replaces what it holds at address [u]. *)
Definition stored (u : string) (r : GhRepo) (w : World) : World :=
  {| gh_repos := <[u := r]> (gh_repos w); gh_faults := gh_faults w;
     gh_requests := gh_requests w; stdout := stdout w |}.

Definition print (l : Line) : M unit := λ w, (Ok tt, emit [l] w).

Definition sys_exit {A} (code : Z) : M A := raise (SystemExit code).

(** *** Requests *)

(** Sending a request: it is recorded, and the next scheduled answer
    decides whether it reaches the server. *)
Definition send (q : Request) : M unit := λ w,
  match gh_faults w with
  | Some e :: _ => (Raise (GithubExc e), sent q w)
  | _ => (Ok tt, sent q w)
  end.

(** The answer for an address the server does not know. *)
Definition not_found : GithubException :=
  {| status := 404; data := DataDict (Some "Not Found");
     str_e := "404 {" +:+ dq +:+ "message" +:+ dq +:+ ": " +:+ dq +:+ "Not Found" +:+ dq +:+ "}" |}.

(** The repository [r] with [added] after its labels. *)
Definition with_labels (r : GhRepo) (added : list GhLabel) : GhRepo :=
  {| gr_full_name := gr_full_name r; gr_organization := gr_organization r;
     gr_labels := gr_labels r ++ added |}.

(** [Github.get_repo(full_name_or_id)] *)
Definition get_repo (full_name_or_id : string) : M Repository :=
  send (ReqGetRepo full_name_or_id);;;
  λ w, match gh_repos w !! full_name_or_id with
       | Some r => (Ok {| url := full_name_or_id; full_name := gr_full_name r;
                          organization := gr_organization r |}, w)
       | None => (Raise (GithubExc not_found), w)
       end.

(** [Repository.get_labels()], with the paginated list read to its end:
    the script always consumes it whole before it does anything else. *)
Definition Repository_get_labels (repo : Repository) : M (list GhLabel) :=
  send (ReqGetLabels (url repo));;;
  λ w, match gh_repos w !! url repo with
       | Some r => (Ok (gr_labels r), w)
       | None => (Raise (GithubExc not_found), w)
       end.

(** [Repository.create_label(name, color, description)]: on success the
    repository holds the new label. *)
Definition Repository_create_label (repo : Repository) (n c d : string) : M unit :=
  send (ReqCreateLabel (url repo) n c d);;;
  λ w, match gh_repos w !! url repo with
       | Some r =>
           let l := {| label_name := n; label_color := c; label_description := Some d |} in
           (Ok tt, stored (url repo) (with_labels r [l]) w)
       | None => (Raise (GithubExc not_found), w)
       end.

(** ** [get_labels] *)
Definition get_labels (repo : Repository) : M (list Label) :=
  let* labels := Repository_get_labels repo in
  ret ((λ label, {| name := label_name label; color := label_color label;
                    description := default EmptyString (label_description label) |})
         <$> labels).

(** ** [sync_labels_to_repo] *)

(** [{label.name: label for label in ...}]: a later label replaces an
    earlier one of the same name. *)
Definition dict_by_name (labels : list GhLabel) : gmap string GhLabel :=
  foldl (λ d label, <[label_name label := label]> d) ∅ labels.

(** [e.data.get('message', str(e))]; [None] where Python raises
    [AttributeError]: [e.data] is [None], which has no [get]. *)
Definition failure_message (e : GithubException) : option string :=
  match data e with
  | DataDict message => Some (default (str_e e) message)
  | DataNone => None
  end.

(** One turn of the [for label_data in source_labels] loop, on the three
    counters.  The handler evaluates the text of its line before it
    prints or counts anything, so an exception without a dict leaves the
    handler, and the function, with an [AttributeError]. *)
Definition sync_label (target_repo : Repository) (dry_run : bool)
    (existing_labels : gmap string GhLabel) (label_data : Label)
    (counts : nat * nat * nat) : M (nat * nat * nat) :=
  let '(created_count, skipped_count, error_count) := counts in
  let label_name := name label_data in
  let label_color := color label_data in
  let label_description := description label_data in
  if decide (is_Some (existing_labels !! label_name)) then
    print (LAlreadyExists label_name);;;
    ret (created_count, S skipped_count, error_count)
  else
    try_except
      ((if dry_run then print (LWouldCreate label_name)
        else (Repository_create_label target_repo label_name label_color label_description;;;
              print (LCreated label_name)));;;
       ret (S created_count, skipped_count, error_count))
      (λ e, match failure_message e with
            | Some message =>
                print (LCreateFailed label_name message);;;
                ret (created_count, skipped_count, S error_count)
            | None => raise AttributeError
            end).

Fixpoint sync_loop (target_repo : Repository) (dry_run : bool)
    (existing_labels : gmap string GhLabel) (source_labels : list Label)
    (counts : nat * nat * nat) : M (nat * nat * nat) :=
  match source_labels with
  | [] => ret counts
  | label_data :: rest =>
      let* counts' := sync_label target_repo dry_run existing_labels label_data counts in
      sync_loop target_repo dry_run existing_labels rest counts'
  end.

Definition sync_labels_to_repo (source_labels : list Label) (target_repo : Repository)
    (dry_run : bool) : M (nat * nat * nat) :=
  print (LRule true);;;
  print (LSyncingTo (full_name target_repo));;;
  print (LRule false);;;
  let* labels := Repository_get_labels target_repo in
  let existing_labels := dict_by_name labels in
  let* (created_count, skipped_count, error_count) := sync_loop target_repo dry_run existing_labels source_labels (0, 0, 0) in
  print (LSummaryFor (full_name target_repo));;;
  print (LCreatedCount created_count);;;
  print (LSkippedCount skipped_count);;;
  print (LErrorCount error_count);;;
  ret (created_count, skipped_count, error_count).

(** ** [load_repos] *)

(** What is found at [repos.yaml] when it exists: text that
    [yaml.safe_load] rejects, or the value it returns. *)
Inductive YamlFile : Type :=
| Unparseable
| Parsed (data : PyVal).

(** [d.get(key, default)] for a string key. *)
Fixpoint dict_get (entries : list (PyVal * PyVal)) (key : string) (dflt : PyVal) : PyVal :=
  match entries with
  | [] => dflt
  | (VStr k, v) :: rest => if decide (k = key) then v else dict_get rest key dflt
  | _ :: rest => dict_get rest key dflt
  end.

(** [data.get("repos", [])]: only a mapping has [get]. *)
Definition load_repos (repos_file : option YamlFile) : M PyVal :=
  match repos_file with
  | None => raise FileNotFoundError
  | Some Unparseable => raise YAMLError
  | Some (Parsed (VDict entries)) => ret (dict_get entries "repos" (VList []))
  | Some (Parsed _) => raise AttributeError
  end.

(** ** [main] *)

(** The process environment and the working directory. *)
Record Env : Type :=
  { GITHUB_TOKEN : option string;
    GITHUB_REPOSITORY : option string;
    repos_yaml : option YamlFile }.

(** [not os.environ.get(...)] *)
Definition unset (v : option string) : bool :=
  match v with
  | None => true
  | Some s => bool_decide (s = EmptyString)
  end.

Fixpoint for_each {A} (xs : list A) (body : A → M unit) : M unit :=
  match xs with
  | [] => ret tt
  | x :: rest => body x;;; for_each rest body
  end.

Section Orchestrator.

(** Two pieces of the Python runtime stay abstract: the text of a
    sequence or a mapping, and the characters of a string (one string
    per code point). *)
Variable py_repr : PyVal → string.
Variable str_chars : string → list string.

(** [f"{v}"] *)
Definition py_format (v : PyVal) : string :=
  match v with
  | VStr s => s
  | VNone => "None"
  | VBool true => "True"
  | VBool false => "False"
  | VInt z => pretty z
  | VOther t => t
  | VList _ | VDict _ => py_repr v
  end.

(** [len(v)]; [None] where Python raises [TypeError]. *)
Definition py_len (v : PyVal) : option nat :=
  match v with
  | VList items => Some (length items)
  | VDict entries => Some (length entries)
  | VStr s => Some (length (str_chars s))
  | _ => None
  end.

(** The items [for x in v] runs over; [None] where Python raises
    [TypeError]. *)
Definition py_iter (v : PyVal) : option (list PyVal) :=
  match v with
  | VList items => Some items
  | VDict entries => Some (fst <$> entries)
  | VStr s => Some (VStr <$> str_chars s)
  | _ => None
  end.

(** One turn of the [for repo_name in downstream_repos] loop, on the
    three totals. *)
Definition sync_target (org_name : string) (source_labels : list Label)
    (repo_name : PyVal) (totals : nat * nat * nat) : M (nat * nat * nat) :=
  let '(total_created, total_skipped, total_errors) := totals in
  let full_repo_name := org_name +:+ "/" +:+ py_format repo_name in
  try_except
    (let* target_repo := get_repo full_repo_name in
     let* (created, skipped, errors) :=
       sync_labels_to_repo source_labels target_repo false in
     ret (total_created + created, total_skipped + skipped, total_errors + errors))
    (λ e, print (LTargetAccessFailed full_repo_name (str_e e));;;
          ret (total_created, total_skipped, S total_errors)).

Fixpoint sync_targets (org_name : string) (source_labels : list Label)
    (downstream_repos : list PyVal) (totals : nat * nat * nat) : M (nat * nat * nat) :=
  match downstream_repos with
  | [] => ret totals
  | repo_name :: rest =>
      let* totals' := sync_target org_name source_labels repo_name totals in
      sync_targets org_name source_labels rest totals'
  end.

Definition main (env : Env) : M unit :=
  let github_token := GITHUB_TOKEN env in
  if unset github_token then print LTokenNotSet;;; sys_exit 1 else
  let current_repo_name := GITHUB_REPOSITORY env in
  if unset current_repo_name then print LRepositoryNotSet;;; sys_exit 1 else
  let current_repo_name := default EmptyString current_repo_name in
  let* (source_repo, org_name) :=
    try_except
      (let* source_repo := get_repo current_repo_name in
       match organization source_repo with
       | None => raise AttributeError
       | Some org_name =>
           print (LSourceRepository (full_name source_repo));;;
           print (LOrganization org_name);;;
           ret (source_repo, org_name)
       end)
      (λ e, print (LSourceAccessFailed current_repo_name (str_e e));;; sys_exit 1) in
  print LFetching;;;
  let* source_labels := get_labels source_repo in
  print (LFound (length source_labels));;;
  let repos_file := repos_yaml env in
  if bool_decide (repos_file = None) then print LReposFileNotFound;;; sys_exit 1 else
  let* downstream_repos := load_repos repos_file in
  match py_len downstream_repos with
  | None => raise TypeError
  | Some n =>
      print (LDownstreamCount n);;;
      match py_iter downstream_repos with
      | None => raise TypeError
      | Some repos =>
          for_each repos (λ repo, print (LDownstreamItem (py_format repo)));;;
          let* (total_created, total_skipped, total_errors) :=
            sync_targets org_name source_labels repos (0, 0, 0) in
          print (LRule true);;;
          print LFinalSummary;;;
          print (LRule false);;;
          print (LTotalCreated total_created);;;
          print (LTotalSkipped total_skipped);;;
          print (LTotalErrors total_errors);;;
          print (LRule false);;;
          if bool_decide (0 < total_errors) then sys_exit 1 else ret tt
      end
  end.

End Orchestrator.

(** The exit status of the interpreter: 0 when [main] returns, the
    argument of [sys.exit], 1 for an exception nobody caught. *)
Definition exit_code (r : Result unit) : Z :=
  match r with
  | Ok _ => 0
  | Raise (SystemExit code) => code
  | Raise _ => 1
  end.

(** A process starts with nothing sent and nothing printed. *)
Definition boot (repos : gmap string GhRepo) (faults : list (option GithubException)) : World :=
  {| gh_repos := repos; gh_faults := faults; gh_requests := []; stdout := [] |}.

(** ** Vocabulary of the specification *)

(** What a run from [w] to [w'] printed, and what it sent. *)
Definition printed (w w' : World) : list Line := drop (length (stdout w)) (stdout w').
Definition requested (w w' : World) : list Request :=
  drop (length (gh_requests w)) (gh_requests w').

(** The three lists of a reconciliation outcome, read off the report. *)
Definition created_of (out : list Line) : list string :=
  omap (λ l, match l with LCreated n | LWouldCreate n => Some n | _ => None end) out.
Definition skipped_of (out : list Line) : list string :=
  omap (λ l, match l with LAlreadyExists n => Some n | _ => None end) out.
Definition errors_of (out : list Line) : list (string * string) :=
  omap (λ l, match l with LCreateFailed n m => Some (n, m) | _ => None end) out.

(** None of the next [n] requests is scheduled to fail. *)
Definition no_fault (n : nat) (w : World) : Prop :=
  Forall (λ f, f = None) (take n (gh_faults w)).

(** The source label is present in the label set [T], by name. *)
Definition present (T : list GhLabel) (l : Label) : Prop :=
  name l ∈ label_name <$> T.

#[global] Instance present_dec T l : Decision (present T l).
Proof. exact (list_elem_of_dec (name l) (label_name <$> T)). Defined.

(** [S − T] and [S ∩ T] by name, in source order. *)
Definition to_create (T : list GhLabel) (src : list Label) : list Label :=
  filter (λ l, ¬ present T l) src.
Definition to_skip (T : list GhLabel) (src : list Label) : list Label :=
  filter (present T) src.

(** The create call for a source label, and the label the server then holds. *)
Definition create_request (target_repo : Repository) (l : Label) : Request :=
  ReqCreateLabel (url target_repo) (name l) (color l) (description l).
Definition stored_label (l : Label) : GhLabel :=
  {| label_name := name l; label_color := color l; label_description := Some (description l) |}.

(** The line the loop prints for a source label when no create call
    fails. *)
Definition report_line (dry_run : bool) (existing_labels : gmap string GhLabel)
    (l : Label) : Line :=
  if decide (is_Some (existing_labels !! name l)) then LAlreadyExists (name l)
  else if dry_run then LWouldCreate (name l) else LCreated (name l).

(** The line a source label may leave in the report, whatever the remote
    answers: every label the loop gets through leaves exactly one. *)
Definition reports (dry_run : bool) (existing_labels : gmap string GhLabel)
    (l : Label) (line : Line) : Prop :=
  if decide (is_Some (existing_labels !! name l)) then line = LAlreadyExists (name l)
  else if dry_run then line = LWouldCreate (name l)
  else line = LCreated (name l) ∨ ∃ m, line = LCreateFailed (name l) m.

(** Between [w] and [w'] the server changed in one way only: the
    repository at [u] got the labels [added] after the ones it had. *)
Definition grown (u : string) (added : list GhLabel) (w w' : World) : Prop :=
  match gh_repos w !! u with
  | Some r => gh_repos w' = <[u := with_labels r added]> (gh_repos w)
  | None => gh_repos w' = gh_repos w ∧ added = []
  end.

(** The lines around the loop: the heading of a target, and its summary. *)
Definition banner (target_repo : Repository) : list Line :=
  [LRule true; LSyncingTo (full_name target_repo); LRule false].
Definition summary (target_repo : Repository) (c s e : nat) : list Line :=
  [LSummaryFor (full_name target_repo); LCreatedCount c; LSkippedCount s; LErrorCount e].

(** The repository a request is addressed to. *)
Definition address (q : Request) : string :=
  match q with
  | ReqGetRepo n => n
  | ReqGetLabels u => u
  | ReqCreateLabel u _ _ _ => u
  end.

(** The requests of one target: the repository is asked for under the
    name [full], and every later request goes to that repository. *)
Definition talks_to (full : string) (qs : list Request) : Prop :=
  ∃ tl, qs = ReqGetRepo full :: tl ∧
        Forall (λ q, address q = full ∧ q ≠ ReqGetRepo full) tl.

(** The source repository can be read: the environment names it, the
    server knows it as [r], it belongs to the organisation [org], and
    the two requests about it are answered. *)
Definition source_readable (env : Env) (w : World) (r : GhRepo) (org : string) : Prop :=
  unset (GITHUB_TOKEN env) = false ∧
  unset (GITHUB_REPOSITORY env) = false ∧
  gh_repos w !! default EmptyString (GITHUB_REPOSITORY env) = Some r ∧
  gr_organization r = Some org ∧
  no_fault 2 w.

(** The targets [repos.yaml] declares, when [load_repos] returns
    something the orchestrator can run over. *)
Definition declared_targets (str_chars : string → list string) (env : Env)
    : option (list PyVal) :=
  match (load_repos (repos_yaml env) (boot ∅ [])).1 with
  | Ok downstream_repos => py_iter str_chars downstream_repos
  | Raise _ => None
  end.

(** Reading the canonical labels of the repository named [cur]: the two
    requests [main] makes about its source. *)
Definition source_fetch (cur : string) : M (list Label) :=
  let* source_repo := get_repo cur in get_labels source_repo.

(** The final summary. *)
Definition final_summary (total_created total_skipped total_errors : nat) : list Line :=
  [LRule true; LFinalSummary; LRule false; LTotalCreated total_created;
   LTotalSkipped total_skipped; LTotalErrors total_errors; LRule false].

(** The totals of errors announced by final summaries. *)
Definition total_errors_of (out : list Line) : list nat :=
  omap (λ l, match l with LTotalErrors n => Some n | _ => None end) out.

(** The labels the server holds at an address (none for an unknown address). *)
Definition labels_at (u : string) (w : World) : list GhLabel :=
  from_option gr_labels [] (gh_repos w !! u).

(** ** A small organisation, for examples

    The scenario of the specification: the canonical labels [bug] and
    [docs] on [acme/labels], and the downstream [acme/svc-a] that only has
    [bug] so far. *)
Definition bug : GhLabel :=
  {| label_name := "bug"; label_color := "ff0000"; label_description := None |}.
Definition docs : GhLabel :=
  {| label_name := "docs"; label_color := "0000ff";
     label_description := Some "Documentation" |}.

Definition canonical_bug : Label :=
  {| name := "bug"; color := "ff0000"; description := EmptyString |}.
Definition canonical_docs : Label :=
  {| name := "docs"; color := "0000ff"; description := "Documentation" |}.
Definition canonical : list Label := [canonical_bug; canonical_docs].

Definition acme : gmap string GhRepo :=
  <["acme/labels" := {| gr_full_name := "acme/labels"; gr_organization := Some "acme";
                        gr_labels := [bug; docs] |}]>
  (<["acme/svc-a" := {| gr_full_name := "acme/svc-a"; gr_organization := Some "acme";
                        gr_labels := [bug] |}]> ∅).

Definition svc_a : Repository :=
  {| url := "acme/svc-a"; full_name := "acme/svc-a"; organization := Some "acme" |}.

(** A failure without a body, as a gateway in front of the API answers. *)
Definition bad_gateway : GithubException :=
  {| status := 502; data := DataNone; str_e := "502" |}.

Definition rate_limited : GithubException :=
  {| status := 403; data := DataDict (Some "API rate limit exceeded");
     str_e := "403 {" +:+ dq +:+ "message" +:+ dq +:+ ": " +:+ dq
              +:+ "API rate limit exceeded" +:+ dq +:+ "}" |}.

(** A workflow run on [acme/labels], with [targets] under the [repos]
    key of [repos.yaml]. *)
Definition ci_env (targets : PyVal) : Env :=
  {| GITHUB_TOKEN := Some "ghs_token";
     GITHUB_REPOSITORY := Some "acme/labels";
     repos_yaml := Some (Parsed (VDict [(VStr "repos", targets)])) |}.

(** Stand-ins for the two abstract pieces of the runtime; the examples
    never reach them. *)
Definition plain_repr : PyVal → string := λ _, "<object>".
Definition no_chars : string → list string := λ _, [].

(** ** Vocabulary for the orchestrator as a whole *)

(** The dict [get_labels] builds from a label of the remote. *)
Definition label_dict (label : GhLabel) : Label :=
  {| name := label_name label; color := label_color label;
     description := default EmptyString (label_description label) |}.

(** What [main] prints between its start and the first target. *)
Definition prelude_lines (py_repr : PyVal → string) (r : GhRepo) (org : string)
    (repos : list PyVal) : list Line :=
  [LSourceRepository (gr_full_name r); LOrganization org; LFetching;
   LFound (length (gr_labels r)); LDownstreamCount (length repos)]
  ++ ((λ repo, LDownstreamItem (py_format py_repr repo)) <$> repos).

(** The targets reported as out of reach, and the targets that got a
    summary, in the order of the report. *)
Definition unreachable_of (out : list Line) : list string :=
  omap (λ l, match l with LTargetAccessFailed r _ => Some r | _ => None end) out.
Definition summarised_of (out : list Line) : list string :=
  omap (λ l, match l with LSummaryFor r => Some r | _ => None end) out.

(** No request at all is scheduled to fail. *)
Definition quiet (w : World) : Prop := Forall (λ f, f = None) (gh_faults w).

(** Every failure the remote is scheduled to answer with carries a dict,
    so that the handler of a failed create call finds its message. *)
Definition dict_faults (w : World) : Prop :=
  Forall (λ f, ∀ e, f = Some e → is_Some (failure_message e)) (gh_faults w).

(** * SPDX headers ([spine_cicd_actions/check_headers.py],
      [check-headers/check-headers.py]) and DCO sign-off ([dco/check-dco.py]) *)

(** ** The string operations the scripts use *)

Definition newline : Ascii.ascii := Ascii.ascii_of_nat 10.

(** [s.split("\n")]: never empty, one more piece than newlines. *)
Fixpoint str_split (s : string) : list string :=
  match s with
  | EmptyString => [EmptyString]
  | String c s' =>
      if decide (c = newline) then EmptyString :: str_split s'
      else match str_split s' with
           | h :: t => String c h :: t
           | [] => [String c EmptyString]
           end
  end.

(** ["\n".join(pieces)] *)
Fixpoint str_join (pieces : list string) : string :=
  match pieces with
  | [] => EmptyString
  | [p] => p
  | p :: rest => p +:+ String newline (str_join rest)
  end.

(** [s.startswith(p)] *)
Fixpoint startswith (s p : string) {struct p} : bool :=
  match p, s with
  | EmptyString, _ => true
  | String c p', String d s' => bool_decide (c = d) && startswith s' p'
  | String _ _, EmptyString => false
  end.

(** [needle in hay] *)
Fixpoint str_in (needle hay : string) : bool :=
  startswith hay needle
  || match hay with
     | EmptyString => false
     | String _ hay' => str_in needle hay'
     end.

(** The text has no newline. *)
Fixpoint one_line (s : string) : bool :=
  match s with
  | EmptyString => true
  | String c s' => negb (bool_decide (c = newline)) && one_line s'
  end.

(** ** Files

    A file holds text, the [str] that [f.read()] returns, kept here as
    its UTF-8 bytes: the texts the scripts look for are ASCII, so
    [split], [in], [startswith] and the regular expression give the same
    answers on the bytes as on the code points.  Opening a file for
    reading or for writing may fail, with the text of the exception; a
    file that cannot be opened for writing keeps its text.  A path is
    the text [str(filepath)]; one that is not on the disk cannot be read
    ([missing] gives the text of that error).  The disk also carries
    what the scripts have printed. *)
Record File : Type :=
  { content : string; read_error : option string; write_error : option string }.

Record Disk : Type :=
  { files : gmap string File; missing : string → string; printed_text : list string }.

Definition say (line : string) (d : Disk) : Disk :=
  {| files := files d; missing := missing d; printed_text := printed_text d ++ [line] |}.

(** [open(filepath, "r", encoding="utf-8")] and [f.read()]: the text, or
    the text of the exception. *)
Definition read_text (filepath : string) (d : Disk) : string + string :=
  match files d !! filepath with
  | Some f => match read_error f with
              | None => inl (content f)
              | Some e => inr e
              end
  | None => inr (missing d filepath)
  end.

(** [open(filepath, "w", encoding="utf-8")] and [f.write(text)]: the
    disk with the new text, or the text of the exception raised by
    [open], the file then being as it was; a new file is created when
    there was none. *)
Definition write_text (filepath text : string) (d : Disk) : Disk + string :=
  match files d !! filepath with
  | Some f =>
      match write_error f with
      | None => inl {| files := <[filepath := {| content := text;
                                                 read_error := read_error f;
                                                 write_error := None |}]> (files d);
                       missing := missing d; printed_text := printed_text d |}
      | Some e => inr e
      end
  | None => inl {| files := <[filepath := {| content := text; read_error := None;
                                             write_error := None |}]> (files d);
                   missing := missing d; printed_text := printed_text d |}
  end.

Module CheckHeaders.

Definition HEADER_LINES : list string :=
  [ "# SPDX-License-Identifier: Apache-2.0";
    "# Copyright (C) 2025, The Spine Docs organization and its contributors." ].

Definition has_headers (content : string) : bool :=
  let first_lines := str_join (take 5 (str_split content)) in
  forallb (λ header, str_in header first_lines) HEADER_LINES.

(** The text [add_headers] writes for a file without headers. *)
Definition with_headers (content : string) : string :=
  let lines := str_split content in
  match lines with
  | first :: rest =>
      if startswith first "#!"
      then str_join ([first] ++ HEADER_LINES ++ [EmptyString] ++ rest)
      else str_join (HEADER_LINES ++ [EmptyString] ++ [content])
  | [] => str_join (HEADER_LINES ++ [EmptyString] ++ [content])
  end.

Definition add_headers (filepath : string) (d : Disk) : bool * Disk :=
  match read_text filepath d with
  | inr e => (false, say ("Error processing " +:+ filepath +:+ ": " +:+ e) d)
  | inl content =>
      if has_headers content then (false, d)
      else
        let new_content := with_headers content in
        match write_text filepath new_content d with
        | inr e => (false, say ("Error processing " +:+ filepath +:+ ": " +:+ e) d)
        | inl d' => (true, d')
        end
  end.

(** A file [add_headers] rewrites: it can be read and written and its
    text fails [has_headers]; and the file it leaves. *)
Definition fixable (f : File) : bool :=
  bool_decide (read_error f = None) && bool_decide (write_error f = None)
  && negb (has_headers (content f)).
Definition fixed (f : File) : File :=
  {| content := with_headers (content f); read_error := read_error f; write_error := None |}.

(** What [add_headers] and [check_file] will answer for a path. *)
Definition needs_fix (d : Disk) (filepath : string) : bool :=
  from_option fixable false (files d !! filepath).
Definition passes (d : Disk) (filepath : string) : bool :=
  match read_text filepath d with
  | inl content => has_headers content
  | inr _ => false
  end.

Definition check_file (filepath : string) (d : Disk) : bool * Disk :=
  match read_text filepath d with
  | inr e => (false, say ("Error reading " +:+ filepath +:+ ": " +:+ e) d)
  | inl content => (has_headers content, d)
  end.

(** The parsed command line. *)
Record Args : Type := { arg_files : list string; arg_fix : bool }.

(** [for filepath in args.files: if add_headers(filepath): modified.append(filepath)] *)
Fixpoint fix_files (filepaths modified : list string) (d : Disk) : list string * Disk :=
  match filepaths with
  | [] => (modified, d)
  | filepath :: rest =>
      let '(changed, d') := add_headers filepath d in
      fix_files rest (if changed then modified ++ [filepath] else modified) d'
  end.

(** [for filepath in args.files: if not check_file(filepath): missing_headers.append(filepath)] *)
Fixpoint check_files (filepaths missing_headers : list string) (d : Disk)
    : list string * Disk :=
  match filepaths with
  | [] => (missing_headers, d)
  | filepath :: rest =>
      let '(ok, d') := check_file filepath d in
      check_files rest (if ok then missing_headers else missing_headers ++ [filepath]) d'
  end.

Definition say_all (lines : list string) (d : Disk) : Disk := foldl (λ d l, say l d) d lines.

Definition main (args : Args) (d : Disk) : Z * Disk :=
  if arg_fix args then
    let '(modified, d1) := fix_files (arg_files args) [] d in
    match modified with
    | _ :: _ =>
        (1%Z, say_all ((λ f, "  - " +:+ f) <$> modified) (say "Added SPDX headers to:" d1))
    | [] => (0%Z, d1)
    end
  else
    let '(missing_headers, d1) := check_files (arg_files args) [] d in
    match missing_headers with
    | _ :: _ =>
        (1%Z,
         say_all ((λ header, "  " +:+ header) <$> HEADER_LINES)
           (say (String newline "Required headers (at top of file):")
              (say_all ((λ f, "  - " +:+ f) <$> missing_headers)
                 (say "❌ Error: The following files are missing required SPDX headers:"
                    d1))))
    | [] => (0%Z, say "✅ All files have required SPDX headers" d1)
    end.

End CheckHeaders.

Module CheckDco.

(** The regular expressions the script needs: a literal character and
    [.+], in sequence, between [^] and [$] under [re.MULTILINE]. *)
Inductive Atom : Type :=
| Lit (c : Ascii.ascii)
| AnyPlus.

Fixpoint lits (s : string) : list Atom :=
  match s with
  | EmptyString => []
  | String c s' => Lit c :: lits s'
  end.

(** [r"^Signed-off-by: .+ <.+@.+>$"], without its two anchors. *)
Definition pattern : list Atom :=
  lits "Signed-off-by: " ++ [AnyPlus] ++ lits " <" ++ [AnyPlus] ++ lits "@"
  ++ [AnyPlus] ++ lits ">".

(** The atoms, then [$], match at the start of [s].  [.] is any
    character but a newline; [$] holds at the end of the text and before
    a newline. *)
Fixpoint match_here (s : string) (atoms : list Atom) {struct s} : bool :=
  match atoms with
  | [] =>
      match s with
      | EmptyString => true
      | String c _ => bool_decide (c = newline)
      end
  | Lit a :: rest =>
      match s with
      | String c s' => bool_decide (c = a) && match_here s' rest
      | EmptyString => false
      end
  | AnyPlus :: rest =>
      match s with
      | String c s' =>
          negb (bool_decide (c = newline)) && (match_here s' rest || match_here s' atoms)
      | EmptyString => false
      end
  end.

(** No literal among the atoms is a newline. *)
Definition clean (atoms : list Atom) : Prop :=
  Forall (λ a, match a with Lit c => c ≠ newline | AnyPlus => True end) atoms.

(** [re.search] of [^ atoms $] with [re.MULTILINE]: [^] holds at the
    start of the text and after each newline. *)
Fixpoint search (atoms : list Atom) (line_start : bool) (s : string) : bool :=
  (line_start && match_here s atoms)
  || match s with
     | EmptyString => false
     | String c s' => search atoms (bool_decide (c = newline)) s'
     end.

Definition check_dco (commit_msg_file : string) (d : Disk) : bool * Disk :=
  match read_text commit_msg_file d with
  | inl message => (search pattern true message, d)
  | inr e => (false, say ("Error reading commit message: " +:+ e) d)
  end.

Definition help_text : list string :=
  [ "❌ Error: Commit message is missing DCO sign-off!";
    EmptyString;
    "Please sign off your commit by using:";
    "  git commit -s";
    EmptyString;
    "Or amend your last commit:";
    "  git commit --amend -s";
    EmptyString;
    "This adds a 'Signed-off-by' line certifying you agree to the DCO.";
    "See DCO.txt or CONTRIBUTING.md for details." ].

Definition main (commit_msg_file : string) (d : Disk) : Z * Disk :=
  let '(signed, d1) := check_dco commit_msg_file d in
  if negb signed then (1%Z, foldl (λ d l, say l d) d1 help_text)
  else (0%Z, say "✅ Commit has DCO sign-off" d1).

(** A line of the form [Signed-off-by: NAME <LOCAL@DOMAIN>], the three
    parts not empty. *)
Definition sign_off (line : string) : Prop :=
  ∃ name local domain,
    name ≠ EmptyString ∧ local ≠ EmptyString ∧ domain ≠ EmptyString ∧
    line = "Signed-off-by: " +:+ name +:+ " <" +:+ local +:+ "@" +:+ domain +:+ ">".

End CheckDco.

(** ** Sample files *)

Definition sample_script : string :=
  "#!/bin/sh" +:+ String newline ("echo hi" +:+ String newline EmptyString).

Definition sample_message : string :=
  "Fix the label sync" +:+ String newline
    (String newline "Signed-off-by: Ada Lovelace <ada@example.org>").

Definition plain_file (text : string) : File :=
  {| content := text; read_error := None; write_error := None |}.

Definition sample_disk : Disk :=
  {| files := <["tool.sh" := plain_file sample_script]>
                (<["COMMIT_EDITMSG" := plain_file sample_message]> ∅);
     missing := λ p, "[Errno 2] No such file or directory: '" +:+ p +:+ "'";
     printed_text := [] |}.

(** ** Proof steps used more than once *)

(** Closes an equation between two outcomes that differ only in how
    their counters are written. *)
Ltac solve_counts := repeat first [lia | reflexivity | f_equal].

(** Proves [dict_faults] for a schedule written out in full. *)
Ltac dict_faults_now :=
  unfold dict_faults; simpl;
  repeat (apply Forall_cons_2; [intros ? [= <-]; vm_compute; eauto|]);
  apply Forall_nil_2.

(** Closes the case of a run that stops before the first target. *)
Ltac stopped :=
  eexists _, _, _, _; split; [reflexivity|]; simpl;
  split; [first [by rewrite <- ?app_assoc | symmetry; apply app_nil_r]|];
  split; [first [by rewrite <- ?app_assoc | symmetry; apply app_nil_r]|];
  left; split_and!;
    [ done | done
    | first [by exists [] | by eexists [_] | by eexists [_; _]]
    | done | ].

(** * Properties *)

(** ** World updates *)

Lemma emit_nil w : emit [] w = w.
Proof. destruct w; unfold emit; simpl. by rewrite app_nil_r. Qed.

Lemma emit_emit o1 o2 w : emit o2 (emit o1 w) = emit (o1 ++ o2) w.
Proof. unfold emit; simpl. by rewrite app_assoc. Qed.

Lemma with_labels_nil r : with_labels r [] = r.
Proof. destruct r; unfold with_labels; simpl. by rewrite app_nil_r. Qed.

Lemma with_labels_app r a b : with_labels (with_labels r a) b = with_labels r (a ++ b).
Proof. unfold with_labels; simpl. by rewrite app_assoc. Qed.

Lemma printed_app w w' out : stdout w' = stdout w ++ out → printed w w' = out.
Proof. unfold printed. intros ->. by rewrite drop_app_length. Qed.

Lemma requested_app w w' qs : gh_requests w' = gh_requests w ++ qs → requested w w' = qs.
Proof. unfold requested. intros ->. by rewrite drop_app_length. Qed.

Lemma no_fault_S n w q : no_fault (S n) w → no_fault n (sent q w).
Proof.
  unfold no_fault; simpl. destruct (gh_faults w) as [|f fs]; simpl.
  - by rewrite take_nil.
  - by inversion 1.
Qed.

Lemma no_fault_sent n w q : no_fault 1 w → no_fault n (sent q w) → no_fault (S n) w.
Proof.
  unfold no_fault; simpl. destruct (gh_faults w) as [|f fs]; simpl; [done|].
  rewrite take_0. intros Hf Hn. inversion Hf; subst. by constructor.
Qed.

Lemma no_fault_le (n m : nat) w : (n ≤ m)%nat → no_fault m w → no_fault n w.
Proof.
  unfold no_fault. intros Hle H.
  replace n with (n `min` m) by lia.
  rewrite <- take_take. by apply Forall_take.
Qed.

Lemma no_fault_send n w q : no_fault (S n) w → send q w = (Ok tt, sent q w).
Proof.
  unfold no_fault, send. destruct (gh_faults w) as [|[e|] fs]; simpl; try done.
  by inversion 1.
Qed.

Lemma dict_faults_sent q w : dict_faults w → dict_faults (sent q w).
Proof.
  unfold dict_faults. simpl. destruct (gh_faults w); [done|]. by inversion 1.
Qed.

Lemma dict_faults_later w w' :
  gh_faults w' `suffix_of` gh_faults w → dict_faults w → dict_faults w'.
Proof.
  unfold dict_faults. intros [k ->] H. by apply Forall_app in H as [_ ?].
Qed.

Lemma quiet_dict_faults w : quiet w → dict_faults w.
Proof.
  unfold quiet, dict_faults. intros H. eapply Forall_impl; [exact H|].
  by intros f -> e.
Qed.

Lemma faults_sent q w : gh_faults (sent q w) `suffix_of` gh_faults w.
Proof. simpl. destruct (gh_faults w); [done|]. by apply suffix_cons_r. Qed.

(** ** The dictionary of existing labels *)

Lemma dict_by_name_lookup (T : list GhLabel) (n : string) :
  is_Some (dict_by_name T !! n) ↔ n ∈ label_name <$> T.
Proof.
  unfold dict_by_name.
  cut (∀ d : gmap string GhLabel,
        is_Some (foldl (λ d label, <[label_name label := label]> d) d T !! n)
        ↔ is_Some (d !! n) ∨ n ∈ label_name <$> T).
  { intros H. rewrite H, lookup_empty. split; [intros [[? ?]|?]; done | by right]. }
  induction T as [|l T IH]; intros d; simpl.
  - split; [by left | intros [?|H]; [done | by apply elem_of_nil in H]].
  - rewrite IH, elem_of_cons. destruct (decide (label_name l = n)) as [<-|Hne].
    + rewrite lookup_insert_eq. split; [auto | intros _; left; by exists l].
    + rewrite lookup_insert_ne by done. intuition congruence.
Qed.

Lemma to_create_dict T S :
  filter (λ l, ¬ is_Some (dict_by_name T !! name l)) S = to_create T S.
Proof. apply list_filter_iff. intros l. unfold present. by rewrite dict_by_name_lookup. Qed.

Lemma to_skip_dict T S :
  filter (λ l, is_Some (dict_by_name T !! name l)) S = to_skip T S.
Proof. apply list_filter_iff. intros l. unfold present. by rewrite dict_by_name_lookup. Qed.

Lemma create_skip_length T S : length (to_create T S) + length (to_skip T S) = length S.
Proof.
  unfold to_create, to_skip. induction S as [|l S IH]; [done|].
  destruct (decide (present T l)).
  - rewrite filter_cons_False, filter_cons_True by tauto. simpl. lia.
  - rewrite filter_cons_True, filter_cons_False by tauto. simpl. lia.
Qed.

(** ** Requests, one at a time *)

Lemma create_label_ok target_repo l r w :
  gh_repos w !! url target_repo = Some r →
  no_fault 1 w →
  Repository_create_label target_repo (name l) (color l) (description l) w
  = (Ok tt, stored (url target_repo) (with_labels r [stored_label l])
              (sent (create_request target_repo l) w)).
Proof.
  intros Hr Hf. unfold Repository_create_label, bind.
  rewrite (no_fault_send 0) by done. simpl. by rewrite Hr.
Qed.

(** A create call either succeeds and stores the label, or fails with a
    [GithubException], which is the scheduled one or the "Not Found" of
    the server; nothing else can come out of it. *)
Lemma create_label_cases target_repo l w :
  (∃ r, gh_repos w !! url target_repo = Some r ∧
        Repository_create_label target_repo (name l) (color l) (description l) w
        = (Ok tt, stored (url target_repo) (with_labels r [stored_label l])
                    (sent (create_request target_repo l) w)))
  ∨ (∃ e, Repository_create_label target_repo (name l) (color l) (description l) w
          = (Raise (GithubExc e), sent (create_request target_repo l) w)
          ∧ (dict_faults w → is_Some (failure_message e))).
Proof.
  unfold Repository_create_label, bind, send, dict_faults.
  destruct (gh_faults w) as [|[e|] fs] eqn:Hf; simpl.
  - destruct (gh_repos w !! url target_repo) as [r|] eqn:Hr; [left | right]; eauto.
  - right. exists e. split; [done|]. intros H. inversion H; subst. eauto.
  - destruct (gh_repos w !! url target_repo) as [r|] eqn:Hr; [left | right]; eauto.
Qed.

Lemma get_labels_cases target_repo w :
  (∃ r, gh_repos w !! url target_repo = Some r ∧ no_fault 1 w ∧
        Repository_get_labels target_repo w
        = (Ok (gr_labels r), sent (ReqGetLabels (url target_repo)) w))
  ∨ (∃ e, Repository_get_labels target_repo w
          = (Raise (GithubExc e), sent (ReqGetLabels (url target_repo)) w)).
Proof.
  unfold Repository_get_labels, bind, send, no_fault.
  destruct (gh_faults w) as [|[e|] fs] eqn:Hf; simpl; [|by eauto|];
    (destruct (gh_repos w !! url target_repo) as [r|] eqn:Hr; [left | right]);
    eauto 6.
Qed.

(** Printing does not change what the remote answers. *)
Lemma get_labels_emit target_repo out w :
  Repository_get_labels target_repo (emit out w)
  = let '(res, w') := Repository_get_labels target_repo w in (res, emit out w').
Proof.
  unfold Repository_get_labels, bind, send. simpl.
  destruct (gh_faults w) as [|[e|] fs]; simpl; try done;
    by destruct (gh_repos w !! url target_repo).
Qed.

(** ** One source label *)

Lemma sync_label_skip target_repo dry_run existing l c s e w :
  is_Some (existing !! name l) →
  sync_label target_repo dry_run existing l (c, s, e) w
  = (Ok (c, S s, e), emit [LAlreadyExists (name l)] w).
Proof. intros H. unfold sync_label. by rewrite decide_True. Qed.

Lemma sync_label_dry target_repo existing l c s e w :
  ¬ is_Some (existing !! name l) →
  sync_label target_repo true existing l (c, s, e) w
  = (Ok (S c, s, e), emit [LWouldCreate (name l)] w).
Proof. intros H. unfold sync_label. by rewrite decide_False. Qed.

Lemma sync_label_real target_repo existing l c s e w :
  ¬ is_Some (existing !! name l) →
  sync_label target_repo false existing l (c, s, e) w
  = match Repository_create_label target_repo (name l) (color l) (description l) w with
    | (Ok _, w1) => (Ok (S c, s, e), emit [LCreated (name l)] w1)
    | (Raise (GithubExc ex), w1) =>
        match failure_message ex with
        | Some message => (Ok (c, s, S e), emit [LCreateFailed (name l) message] w1)
        | None => (Raise AttributeError, w1)
        end
    | (Raise ex, w1) => (Raise ex, w1)
    end.
Proof.
  intros H. unfold sync_label. rewrite decide_False by done.
  unfold try_except, bind.
  destruct (Repository_create_label _ _ _ _ w) as [[[]|[ex| | | | |]] w1]; try done.
  by destruct (failure_message ex).
Qed.

Lemma sync_loop_cons target_repo dry_run existing l S counts w :
  sync_loop target_repo dry_run existing (l :: S) counts w
  = match sync_label target_repo dry_run existing l counts w with
    | (Ok counts', w') => sync_loop target_repo dry_run existing S counts' w'
    | (Raise e, w') => (Raise e, w')
    end.
Proof. done. Qed.

(** ** The loop over the source labels *)

Lemma report_line_present dry_run existing l :
  is_Some (existing !! name l) → report_line dry_run existing l = LAlreadyExists (name l).
Proof. intros. unfold report_line. by rewrite decide_True. Qed.

Lemma report_line_absent dry_run existing l :
  ¬ is_Some (existing !! name l) →
  report_line dry_run existing l = if dry_run then LWouldCreate (name l) else LCreated (name l).
Proof. intros. unfold report_line. by rewrite decide_False. Qed.

Lemma total_errors_of_items {A} (f : A → string) (xs : list A) :
  total_errors_of ((λ x, LDownstreamItem (f x)) <$> xs) = [].
Proof. induction xs as [|x xs IH]; [done|]. rewrite fmap_cons. simpl. exact IH. Qed.

Section Loop.
Context (target_repo : Repository) (existing : gmap string GhLabel).

Local Notation "'hit'" := (λ l : Label, is_Some (existing !! name l)) (only parsing).
Local Notation "'miss'" := (λ l : Label, ¬ is_Some (existing !! name l)) (only parsing).

(** Under dry-run the loop only prints. *)
Lemma sync_loop_dry src : ∀ c s e w,
  sync_loop target_repo true existing src (c, s, e) w
  = (Ok (c + length (filter miss src), s + length (filter hit src), e),
     emit (report_line true existing <$> src) w).
Proof.
  induction src as [|l src IH]; intros c s e w.
  - simpl. unfold ret. rewrite emit_nil. solve_counts.
  - rewrite sync_loop_cons, fmap_cons.
    destruct (decide (is_Some (existing !! name l))) as [Hl|Hl].
    + rewrite sync_label_skip, IH, emit_emit, report_line_present by done.
      rewrite (filter_cons_False miss), (filter_cons_True hit) by (cbv beta; tauto).
      simpl.
      solve_counts.
    + rewrite sync_label_dry, IH, emit_emit, report_line_absent by done.
      rewrite (filter_cons_True miss), (filter_cons_False hit) by done.
      simpl.
      solve_counts.
Qed.

(** A real run in which every create call is answered: each missing
    label is sent, stored and reported, in source order. *)
Lemma sync_loop_clean src : ∀ c s e w r,
  gh_repos w !! url target_repo = Some r →
  no_fault (length (filter miss src)) w →
  sync_loop target_repo false existing src (c, s, e) w
  = (Ok (c + length (filter miss src), s + length (filter hit src), e),
     {| gh_repos := <[url target_repo := with_labels r (stored_label <$> filter miss src)]>
                      (gh_repos w);
        gh_faults := drop (length (filter miss src)) (gh_faults w);
        gh_requests := gh_requests w ++ (create_request target_repo <$> filter miss src);
        stdout := stdout w ++ (report_line false existing <$> src) |}).
Proof.
  induction src as [|l src IH]; intros c s e w r Hr Hf.
  - simpl. unfold ret. rewrite with_labels_nil, insert_id by done.
    destruct w; simpl. rewrite !app_nil_r. solve_counts.
  - rewrite sync_loop_cons, fmap_cons.
    destruct (decide (is_Some (existing !! name l))) as [Hl|Hl].
    + rewrite (filter_cons_False miss), (filter_cons_True hit) in * by (cbv beta; tauto).
      rewrite sync_label_skip, report_line_present by done.
      rewrite (IH _ _ _ _ r) by done. simpl.
      rewrite <- app_assoc. simpl. solve_counts.
    + rewrite (filter_cons_True miss), (filter_cons_False hit) in * by done.
      simpl in Hf. rewrite sync_label_real, report_line_absent by done.
      rewrite (create_label_ok _ _ r) by (done || by eapply no_fault_le, Hf; lia).
      rewrite (IH _ _ _ _ (with_labels r [stored_label l])); simpl.
      * rewrite insert_insert_eq, with_labels_app, <- !app_assoc. simpl.
        replace (drop (length (filter miss src)) (tail (gh_faults w)))
          with (drop (S (length (filter miss src))) (gh_faults w))
          by (destruct (gh_faults w); simpl; by rewrite ?drop_nil).
        solve_counts.
      * by rewrite lookup_insert_eq.
      * by apply (no_fault_S _ _ (create_request target_repo l)) in Hf.
Qed.

(** When every source label is already there, the loop skips them all,
    dry-run or not. *)
Lemma sync_loop_all_present dry_run src : ∀ c s e w,
  Forall hit src →
  sync_loop target_repo dry_run existing src (c, s, e) w
  = (Ok (c, s + length src, e), emit ((λ l, LAlreadyExists (name l)) <$> src) w).
Proof.
  induction src as [|l src IH]; intros c s e w HS.
  - simpl. unfold ret. rewrite emit_nil. solve_counts.
  - inversion HS; subst. rewrite sync_loop_cons, sync_label_skip by done.
    rewrite IH, emit_emit by done. simpl. solve_counts.
Qed.

(** Whatever the remote answers, the loop ends in one of two ways.  It
    runs to its end: every source label leaves one line and moves one
    counter, and a real run sends one create call per missing label.
    Or a create call is answered by an exception without a dict: the
    handler raises [AttributeError] and the loop stops there, the labels
    before that one ([pre]) processed, the ones after it not looked at.
    Either way the server only gains labels that were missing. *)
Lemma sync_loop_general dry_run src : ∀ c s e w,
  ∃ res w' out added pre post,
    sync_loop target_repo dry_run existing src (c, s, e) w = (res, w') ∧
    src = pre ++ post ∧
    stdout w' = stdout w ++ out ∧
    Forall2 (reports dry_run existing) pre out ∧
    grown (url target_repo) added w w' ∧
    added `sublist_of` (stored_label <$> filter miss pre) ∧
    (dry_run = true → added = []) ∧
    gh_faults w' `suffix_of` gh_faults w ∧
    ((post = [] ∧
      res = Ok (c + length (created_of out), s + length (skipped_of out),
                e + length (errors_of out)) ∧
      gh_requests w' = gh_requests w ++
        (if dry_run then [] else create_request target_repo <$> filter miss pre))
     ∨ (∃ l rest, post = l :: rest ∧ ¬ is_Some (existing !! name l) ∧ dry_run = false ∧
          res = Raise AttributeError ∧ ¬ dict_faults w ∧
          gh_requests w' = gh_requests w ++
            (create_request target_repo <$> filter miss (pre ++ [l])))).
Proof.
  induction src as [|l src IH]; intros c s e w.
  - exists (Ok (c, s, e)), w, [], [], [], []. simpl.
    split_and!; try done; try (by rewrite app_nil_r).
    + unfold grown. destruct (gh_repos w !! url target_repo) eqn:Hr; [|done].
      by rewrite with_labels_nil, insert_id.
    + left. split_and!; [done | solve_counts |].
      by destruct dry_run; rewrite ?app_nil_r.
  - rewrite sync_loop_cons.
    destruct (decide (is_Some (existing !! name l))) as [Hl|Hl].
    { rewrite sync_label_skip by done.
      destruct (IH c (S s) e (emit [LAlreadyExists (name l)] w))
        as (res & w' & out & added & pre & post & Hrun & Hsrc & Hout & Hrep & Hg & Hsub
            & Hdry & Hfl & Hcase).
      exists res, w', (LAlreadyExists (name l) :: out), added, (l :: pre), post.
      rewrite (filter_cons_False miss) by (cbv beta; tauto).
      split_and!; [done | by rewrite Hsrc | | | exact Hg | done | done | exact Hfl |].
      - simpl in Hout. by rewrite Hout, <- app_assoc.
      - constructor; [|done]. unfold reports. by rewrite decide_True.
      - destruct Hcase as [(-> & -> & Hq)|(l' & rest & -> & Hl' & -> & -> & Hnd & Hq)].
        + left. split_and!; [done | simpl; solve_counts | done].
        + right. exists l', rest. split_and!; try done.
          simpl. by rewrite (filter_cons_False miss) by (cbv beta; tauto). }
    destruct dry_run.
    { rewrite sync_label_dry by done.
      destruct (IH (S c) s e (emit [LWouldCreate (name l)] w))
        as (res & w' & out & added & pre & post & Hrun & Hsrc & Hout & Hrep & Hg & Hsub
            & Hdry & Hfl & Hcase).
      exists res, w', (LWouldCreate (name l) :: out), added, (l :: pre), post.
      split_and!; [done | by rewrite Hsrc | | | exact Hg | | done | exact Hfl |].
      - simpl in Hout. by rewrite Hout, <- app_assoc.
      - constructor; [|done]. unfold reports. by rewrite decide_False.
      - rewrite (Hdry eq_refl). apply sublist_nil_l.
      - destruct Hcase as [(-> & -> & Hq)|(l' & rest & _ & _ & [=] & _)].
        left. split_and!; [done | simpl; solve_counts | done]. }
    rewrite sync_label_real by done.
    destruct (create_label_cases target_repo l w) as [(r & Hr & ->)|(ex & -> & Hex)].
    { destruct (IH (S c) s e (emit [LCreated (name l)]
                   (stored (url target_repo) (with_labels r [stored_label l])
                      (sent (create_request target_repo l) w))))
        as (res & w' & out & added & pre & post & Hrun & Hsrc & Hout & Hrep & Hg & Hsub
            & Hdry & Hfl & Hcase).
      exists res, w', (LCreated (name l) :: out), (stored_label l :: added), (l :: pre), post.
      rewrite (filter_cons_True miss) by done.
      split_and!; [done | by rewrite Hsrc | | | | by apply sublist_skip | done | |].
      - simpl in Hout. by rewrite Hout, <- app_assoc.
      - constructor; [|done]. unfold reports. rewrite decide_False by done. by left.
      - unfold grown in *. simpl in Hg. rewrite lookup_insert_eq in Hg.
        by rewrite Hr, Hg, insert_insert_eq, with_labels_app.
      - etrans; [exact Hfl|]. apply (faults_sent (create_request target_repo l)).
      - destruct Hcase as [(-> & -> & Hq)|(l' & rest & -> & Hl' & _ & -> & Hnd & Hq)].
        + left. split_and!; [done | simpl; solve_counts |].
          simpl in Hq. by rewrite Hq, <- app_assoc.
        + right. exists l', rest. split_and!; try done.
          * intros Hd. apply Hnd.
            by apply (dict_faults_sent (create_request target_repo l)) in Hd.
          * simpl in Hq |- *. rewrite (filter_cons_True miss) by done.
            by rewrite Hq, <- app_assoc. }
    destruct (failure_message ex) as [m|] eqn:Hm.
    { destruct (IH c s (S e) (emit [LCreateFailed (name l) m]
                   (sent (create_request target_repo l) w)))
        as (res & w' & out & added & pre & post & Hrun & Hsrc & Hout & Hrep & Hg & Hsub
            & Hdry & Hfl & Hcase).
      exists res, w', (LCreateFailed (name l) m :: out), added, (l :: pre), post.
      rewrite (filter_cons_True miss) by done.
      split_and!; [done | by rewrite Hsrc | | | exact Hg | by apply sublist_cons | done | |].
      - simpl in Hout. by rewrite Hout, <- app_assoc.
      - constructor; [|done]. unfold reports. rewrite decide_False by done. eauto.
      - etrans; [exact Hfl|]. apply (faults_sent (create_request target_repo l)).
      - destruct Hcase as [(-> & -> & Hq)|(l' & rest & -> & Hl' & _ & -> & Hnd & Hq)].
        + left. split_and!; [done | simpl; solve_counts |].
          simpl in Hq. by rewrite Hq, <- app_assoc.
        + right. exists l', rest. split_and!; try done.
          * intros Hd. apply Hnd.
            by apply (dict_faults_sent (create_request target_repo l)) in Hd.
          * simpl in Hq |- *. rewrite (filter_cons_True miss) by done.
            by rewrite Hq, <- app_assoc. }
    exists (Raise AttributeError), (sent (create_request target_repo l) w), [], [], [],
      (l :: src).
    split_and!; [done | done | by rewrite app_nil_r | constructor | | done | done
                | apply faults_sent |].
    + unfold grown. simpl. destruct (gh_repos w !! url target_repo) eqn:Hr; [|done].
      by rewrite with_labels_nil, insert_id.
    + right. exists l, src. split_and!; try done.
      * intros Hd. by destruct (Hex Hd).
      * simpl. by rewrite (filter_cons_True miss).
Qed.

(** Each line of a report falls under exactly one of created, skipped
    and errors. *)
Lemma reports_counts dry_run src out :
  Forall2 (reports dry_run existing) src out →
  length (created_of out) + length (skipped_of out) + length (errors_of out) = length src.
Proof.
  induction 1 as [|l line src out Hl _ IH]; [done|]. unfold reports in Hl.
  destruct (decide (is_Some (existing !! name l))); [subst line; simpl; lia|].
  destruct dry_run; [subst line; simpl; lia|].
  destruct Hl as [->|[m ->]]; simpl; lia.
Qed.

(** When every failure carries a dict, the loop runs to its end. *)
Lemma sync_loop_returns dry_run src c s e w :
  dict_faults w →
  ∃ c' s' e' w' out added,
    sync_loop target_repo dry_run existing src (c, s, e) w = (Ok (c', s', e'), w') ∧
    c' + s' + e' = c + s + e + length src ∧
    stdout w' = stdout w ++ out ∧
    Forall2 (reports dry_run existing) src out ∧
    c' = c + length (created_of out) ∧
    s' = s + length (skipped_of out) ∧
    e' = e + length (errors_of out) ∧
    gh_requests w' = gh_requests w ++
      (if dry_run then [] else create_request target_repo <$> filter miss src) ∧
    grown (url target_repo) added w w' ∧
    added `sublist_of` (stored_label <$> filter miss src) ∧
    (dry_run = true → added = []) ∧
    dict_faults w'.
Proof.
  intros Hd.
  destruct (sync_loop_general dry_run src c s e w)
    as (res & w' & out & added & pre & post & Hrun & Hsrc & Hout & Hrep & Hg & Hsub
        & Hdry & Hfl & [(-> & -> & Hq)|(l & rest & _ & _ & _ & _ & Hnd & _)]); [|done].
  rewrite app_nil_r in Hsrc. subst pre.
  pose proof (reports_counts _ _ _ Hrep).
  eexists _, _, _, w', out, added.
  split_and!; try done; try lia. by apply (dict_faults_later w).
Qed.

End Loop.

(** ** Reading the report *)

Lemma created_of_app o1 o2 : created_of (o1 ++ o2) = created_of o1 ++ created_of o2.
Proof. apply omap_app. Qed.
Lemma skipped_of_app o1 o2 : skipped_of (o1 ++ o2) = skipped_of o1 ++ skipped_of o2.
Proof. apply omap_app. Qed.
Lemma errors_of_app o1 o2 : errors_of (o1 ++ o2) = errors_of o1 ++ errors_of o2.
Proof. apply omap_app. Qed.

Lemma created_of_report dry_run existing src :
  created_of (report_line dry_run existing <$> src)
  = name <$> filter (λ l, ¬ is_Some (existing !! name l)) src.
Proof.
  induction src as [|l src IH]; [done|]. rewrite fmap_cons.
  destruct (decide (is_Some (existing !! name l))).
  - rewrite report_line_present, filter_cons_False by tauto. apply IH.
  - rewrite report_line_absent, filter_cons_True by done.
    rewrite fmap_cons, <- IH. by destruct dry_run.
Qed.

Lemma skipped_of_report dry_run existing src :
  skipped_of (report_line dry_run existing <$> src)
  = name <$> filter (λ l, is_Some (existing !! name l)) src.
Proof.
  induction src as [|l src IH]; [done|]. rewrite fmap_cons.
  destruct (decide (is_Some (existing !! name l))).
  - rewrite report_line_present, filter_cons_True by done.
    rewrite fmap_cons, <- IH. done.
  - rewrite report_line_absent, filter_cons_False by done.
    rewrite <- IH. by destruct dry_run.
Qed.

Lemma errors_of_report dry_run existing src :
  errors_of (report_line dry_run existing <$> src) = [].
Proof.
  induction src as [|l src IH]; [done|]. rewrite fmap_cons.
  destruct (decide (is_Some (existing !! name l))).
  - by rewrite report_line_present.
  - rewrite report_line_absent by done. by destruct dry_run.
Qed.

(** ** [sync_labels_to_repo] as a whole *)

(** The function, step by step: heading, fetch, loop, summary. *)
Lemma sync_labels_to_repo_eq src target_repo dry_run w :
  sync_labels_to_repo src target_repo dry_run w
  = match Repository_get_labels target_repo w with
    | (Ok labels, w1) =>
        match sync_loop target_repo dry_run (dict_by_name labels) src (0, 0, 0)
                (emit (banner target_repo) w1) with
        | (Ok (c, s, e), w2) => (Ok (c, s, e), emit (summary target_repo c s e) w2)
        | (Raise ex, w2) => (Raise ex, w2)
        end
    | (Raise ex, w1) => (Raise ex, emit (banner target_repo) w1)
    end.
Proof.
  unfold sync_labels_to_repo, bind, print. rewrite !emit_emit. simpl.
  rewrite get_labels_emit.
  destruct (Repository_get_labels target_repo w) as [[labels|ex] w1]; [|done].
  fold (banner target_repo).
  destruct (sync_loop _ _ _ _ _ _) as [[[[c s] e]|ex] w2]; [|done].
  by rewrite !emit_emit.
Qed.

(** When the fetch fails, so does the reconciliation, with one request
    sent and nothing changed on the server. *)
Lemma sync_labels_to_repo_fetch_failed src target_repo dry_run w ex w1 :
  Repository_get_labels target_repo w = (Raise ex, w1) →
  ∃ e, ex = GithubExc e ∧
       sync_labels_to_repo src target_repo dry_run w
       = (Raise (GithubExc e),
          emit (banner target_repo) (sent (ReqGetLabels (url target_repo)) w)).
Proof.
  intros H. rewrite sync_labels_to_repo_eq.
  destruct (get_labels_cases target_repo w) as [(r & _ & _ & Heq)|(e & Heq)];
    rewrite Heq in H |- *; [done|].
  exists e. by inversion H.
Qed.

(** A successful fetch returns what the server holds, after one request. *)
Lemma get_labels_ok target_repo w T :
  (Repository_get_labels target_repo w).1 = Ok T →
  Repository_get_labels target_repo w = (Ok T, sent (ReqGetLabels (url target_repo)) w)
  ∧ labels_at (url target_repo) w = T
  ∧ ∃ r, gh_repos w !! url target_repo = Some r ∧ gr_labels r = T.
Proof.
  intros H. unfold labels_at.
  destruct (get_labels_cases target_repo w) as [(r & Hr & _ & Heq)|(e & Heq)];
    rewrite Heq in H |- *; simpl in H; [|done].
  inversion H; subst. rewrite Hr. eauto.
Qed.

(** A reconciliation whose fetch is answered, whatever the create calls
    are answered: it returns its tallies after the summary, or it stops
    with the [AttributeError] of the handler at the first create call
    answered without a dict, before any summary. *)
Lemma reconcile_general src target_repo dry_run w T :
  (Repository_get_labels target_repo w).1 = Ok T →
  ∃ res w' out added pre post,
    sync_labels_to_repo src target_repo dry_run w = (res, w') ∧
    src = pre ++ post ∧
    Forall2 (reports dry_run (dict_by_name T)) pre out ∧
    grown (url target_repo) added w w' ∧
    added `sublist_of` (stored_label <$> to_create T pre) ∧
    (dry_run = true → added = []) ∧
    gh_faults w' `suffix_of` gh_faults w ∧
    ((post = [] ∧
      res = Ok (length (created_of out), length (skipped_of out), length (errors_of out)) ∧
      stdout w' = stdout w ++ banner target_repo ++ out
                    ++ summary target_repo (length (created_of out))
                         (length (skipped_of out)) (length (errors_of out)) ∧
      gh_requests w' = gh_requests w ++ ReqGetLabels (url target_repo) ::
        (if dry_run then [] else create_request target_repo <$> to_create T pre))
     ∨ (∃ l rest, post = l :: rest ∧ ¬ present T l ∧ dry_run = false ∧
          res = Raise AttributeError ∧ ¬ dict_faults w ∧
          stdout w' = stdout w ++ banner target_repo ++ out ∧
          gh_requests w' = gh_requests w ++ ReqGetLabels (url target_repo) ::
            (create_request target_repo <$> to_create T (pre ++ [l])))).
Proof.
  intros HT. destruct (get_labels_ok _ _ _ HT) as (Hfetch & _ & r & Hr & <-).
  rewrite sync_labels_to_repo_eq, Hfetch.
  destruct (sync_loop_general target_repo (dict_by_name (gr_labels r)) dry_run src 0 0 0
              (emit (banner target_repo) (sent (ReqGetLabels (url target_repo)) w)))
    as (res & w' & out & added & pre & post & -> & Hsrc & Hout & Hrep & Hg & Hsub
        & Hdry & Hfl & Hcase).
  rewrite to_create_dict in Hsub.
  assert (gh_faults w' `suffix_of` gh_faults w) as Hfl'.
  { etrans; [exact Hfl|]. apply (faults_sent (ReqGetLabels (url target_repo))). }
  destruct Hcase as [(-> & -> & Hq)|(l & rest & -> & Hl & -> & -> & Hnd & Hq)].
  - eexists _, _, out, added, pre, []. cbn [Nat.add].
    split_and!; [reflexivity | done | done | exact Hg | done | done | exact Hfl' |].
    left. split_and!; [done | done | |].
    + simpl in *. by rewrite Hout, <- !app_assoc.
    + rewrite to_create_dict in Hq. simpl in *. by rewrite Hq, <- app_assoc.
  - eexists _, _, out, added, pre, (l :: rest).
    split_and!; [reflexivity | done | done | exact Hg | done | done | exact Hfl' |].
    right. exists l, rest. split_and!; try done.
    + unfold present. by rewrite <- dict_by_name_lookup.
    + intros Hd. apply Hnd.
      by apply (dict_faults_sent (ReqGetLabels (url target_repo))) in Hd.
    + simpl in *. by rewrite Hout, <- !app_assoc.
    + rewrite to_create_dict in Hq. simpl in *. by rewrite Hq, <- app_assoc.
Qed.

(** When every failure carries a dict, the reconciliation returns. *)
Lemma reconcile_returns src target_repo dry_run w T :
  (Repository_get_labels target_repo w).1 = Ok T →
  dict_faults w →
  ∃ c s e w' out added,
    sync_labels_to_repo src target_repo dry_run w = (Ok (c, s, e), w') ∧
    c + s + e = length src ∧
    stdout w' = stdout w ++ banner target_repo ++ out ++ summary target_repo c s e ∧
    Forall2 (reports dry_run (dict_by_name T)) src out ∧
    c = length (created_of out) ∧ s = length (skipped_of out) ∧ e = length (errors_of out) ∧
    gh_requests w' = gh_requests w ++ ReqGetLabels (url target_repo) ::
      (if dry_run then [] else create_request target_repo <$> to_create T src) ∧
    grown (url target_repo) added w w' ∧
    added `sublist_of` (stored_label <$> to_create T src) ∧
    (dry_run = true → added = []) ∧
    dict_faults w'.
Proof.
  intros HT Hd.
  destruct (reconcile_general src target_repo dry_run w T HT)
    as (res & w' & out & added & pre & post & Hrun & Hsrc & Hrep & Hg & Hsub & Hdry & Hfl
        & [(-> & -> & Hout & Hq)|(l & rest & _ & _ & _ & _ & Hnd & _)]); [|done].
  rewrite app_nil_r in Hsrc. subst pre.
  pose proof (reports_counts _ _ _ _ Hrep).
  eexists _, _, _, w', out, added.
  split_and!; try done. by apply (dict_faults_later w).
Qed.

(** C2: whenever the target's labels are fetched, the three tallies the
    reconciliation returns add up to the number of source labels, and
    each tally is the number of labels reported in its category.  The
    reconciliation returns its tallies unless a create call is answered
    by an exception without a dict, in which case the handler raises
    [AttributeError] and nothing is returned: so it returns them in
    every dry run, and in every real run whose failures carry a dict. *)
Theorem sync_tallies_partition src target_repo dry_run w T :
  (Repository_get_labels target_repo w).1 = Ok T →
  let run := sync_labels_to_repo src target_repo dry_run w in
  (∀ c s e, run.1 = Ok (c, s, e) →
     c + s + e = length src ∧
     c = length (created_of (printed w run.2)) ∧
     s = length (skipped_of (printed w run.2)) ∧
     e = length (errors_of (printed w run.2)))
  ∧ ((∃ c s e, run.1 = Ok (c, s, e))
     ∨ (run.1 = Raise AttributeError ∧ dry_run = false ∧ ¬ dict_faults w))
  ∧ (dict_faults w ∨ dry_run = true → ∃ c s e, run.1 = Ok (c, s, e)).
Proof.
  intros HT run. subst run.
  destruct (reconcile_general src target_repo dry_run w T HT)
    as (res & w' & out & added & pre & post & -> & Hsrc & Hrep & _ & _ & _ & _
        & [(-> & -> & Hout & _)|(l & rest & _ & _ & -> & -> & Hnd & _)]); cbn [fst snd].
  - rewrite app_nil_r in Hsrc. subst pre.
    pose proof (reports_counts _ _ _ _ Hrep) as Hsum.
    rewrite (printed_app _ _ _ Hout).
    rewrite created_of_app, skipped_of_app, errors_of_app.
    rewrite created_of_app, skipped_of_app, errors_of_app. simpl.
    rewrite !app_nil_r. split_and!; [by intros c s e [= <- <- <-] | left; eauto | eauto].
  - split_and!; [done | by right | by intros [?|?]].
Qed.

(** The whole of a dry run. *)
Lemma reconcile_dry src target_repo w T :
  (Repository_get_labels target_repo w).1 = Ok T →
  sync_labels_to_repo src target_repo true w
  = (Ok (length (to_create T src), length (to_skip T src), 0),
     emit (banner target_repo ++ (report_line true (dict_by_name T) <$> src)
           ++ summary target_repo (length (to_create T src)) (length (to_skip T src)) 0)
       (sent (ReqGetLabels (url target_repo)) w)).
Proof.
  intros HT. destruct (get_labels_ok _ _ _ HT) as (Hfetch & _).
  rewrite sync_labels_to_repo_eq, Hfetch, sync_loop_dry.
  rewrite to_create_dict, to_skip_dict. cbv iota beta.
  by rewrite !emit_emit, <- ?app_assoc.
Qed.

(** The whole of a real run in which the fetch and every create call
    are answered. *)
Lemma reconcile_clean src target_repo w r :
  gh_repos w !! url target_repo = Some r →
  no_fault (S (length (to_create (gr_labels r) src))) w →
  sync_labels_to_repo src target_repo false w
  = (Ok (length (to_create (gr_labels r) src), length (to_skip (gr_labels r) src), 0),
     {| gh_repos := <[url target_repo :=
                        with_labels r (stored_label <$> to_create (gr_labels r) src)]>
                      (gh_repos w);
        gh_faults := drop (S (length (to_create (gr_labels r) src))) (gh_faults w);
        gh_requests := gh_requests w ++ ReqGetLabels (url target_repo)
                         :: (create_request target_repo <$> to_create (gr_labels r) src);
        stdout := stdout w ++ banner target_repo
                    ++ (report_line false (dict_by_name (gr_labels r)) <$> src)
                    ++ summary target_repo (length (to_create (gr_labels r) src))
                         (length (to_skip (gr_labels r) src)) 0 |}).
Proof.
  intros Hr Hf.
  assert ((Repository_get_labels target_repo w).1 = Ok (gr_labels r)) as HT.
  { destruct (get_labels_cases target_repo w) as [(r' & Hr' & _ & ->)|(e & He)].
    - simpl. congruence.
    - exfalso. unfold Repository_get_labels, bind in He.
      rewrite (no_fault_send (length (to_create (gr_labels r) src))) in He by done.
      simpl in He. by rewrite Hr in He. }
  destruct (get_labels_ok _ _ _ HT) as (Hfetch & _).
  rewrite sync_labels_to_repo_eq, Hfetch.
  rewrite (sync_loop_clean _ _ _ _ _ _ _ r); rewrite ?to_create_dict, ?to_skip_dict.
  - unfold emit. simpl.
    replace (drop (length (to_create (gr_labels r) src)) (tail (gh_faults w)))
      with (drop (S (length (to_create (gr_labels r) src))) (gh_faults w))
      by (destruct (gh_faults w); simpl; by rewrite ?drop_nil).
    by rewrite <- !app_assoc.
  - done.
  - by apply (no_fault_S _ _ (ReqGetLabels (url target_repo))) in Hf.
Qed.

(** ** Dry run *)

(** C10: under dry-run the error count is 0, for every source label set
    and every target whose labels are fetched; no failure line is
    reported either. *)
Theorem dry_run_never_errors src target_repo w T :
  (Repository_get_labels target_repo w).1 = Ok T →
  ∃ c s w',
    sync_labels_to_repo src target_repo true w = (Ok (c, s, 0), w') ∧
    errors_of (printed w w') = [].
Proof.
  intros HT. rewrite (reconcile_dry _ _ _ _ HT).
  eexists _, _, _. split; [done|].
  erewrite printed_app by done.
  by rewrite !errors_of_app, errors_of_report.
Qed.

Lemma dry_run_never_errors_witness :
  ∃ c s w',
    sync_labels_to_repo canonical svc_a true (boot acme []) = (Ok (c, s, 0), w') ∧
    errors_of (printed (boot acme []) w') = [].
Proof. apply (dry_run_never_errors canonical svc_a (boot acme []) [bug]). vm_compute. reflexivity. Defined.

(** C3: a dry run sends no create call and leaves the server as it was,
    for every target; when the target's labels are fetched, every label
    that a real run would create is counted and reported under created,
    and the tallies are those of the real run whose calls all succeed. *)
Theorem dry_run_sends_no_create src target_repo w :
  let run := sync_labels_to_repo src target_repo true w in
  gh_repos run.2 = gh_repos w
  ∧ requested w run.2 = [ReqGetLabels (url target_repo)]
  ∧ ∀ T, (Repository_get_labels target_repo w).1 = Ok T →
      run.1 = Ok (length (to_create T src), length (to_skip T src), 0)
      ∧ created_of (printed w run.2) = name <$> to_create T src
      ∧ (no_fault (S (length (to_create T src))) w →
         (sync_labels_to_repo src target_repo false w).1 = run.1).
Proof.
  intros run. subst run.
  destruct (Repository_get_labels target_repo w) as [[T0|ex] w1] eqn:Hfetch.
  - assert ((Repository_get_labels target_repo w).1 = Ok T0) as HT0 by by rewrite Hfetch.
    rewrite (reconcile_dry _ _ _ _ HT0). cbn [fst snd].
    split_and!; [done | by apply requested_app |].
    intros T [= <-]. split_and!; [done | |].
    + erewrite printed_app by done.
      by rewrite !created_of_app, created_of_report, to_create_dict, app_nil_r.
    + intros Hf. destruct (get_labels_ok _ _ _ HT0) as (_ & _ & r & Hr & <-).
      by rewrite (reconcile_clean _ _ _ r).
  - destruct (sync_labels_to_repo_fetch_failed src _ true _ _ _ Hfetch) as (e & -> & ->).
    simpl. split_and!; [done | by apply requested_app |]. by intros T [=].
Qed.

Lemma dry_run_sends_no_create_witness :
  gh_repos (sync_labels_to_repo canonical svc_a true (boot acme [])).2 = acme
  ∧ (sync_labels_to_repo canonical svc_a true (boot acme [])).1 = Ok (1, 1, 0)
  ∧ (sync_labels_to_repo canonical svc_a false (boot acme [])).1 = Ok (1, 1, 0).
Proof.
  destruct (dry_run_sends_no_create canonical svc_a (boot acme [])) as (Hsame & _ & Hrep).
  destruct (Hrep [bug]) as (Hres & _ & Hreal); [vm_compute; reflexivity|].
  split_and!.
  - exact Hsame.
  - exact Hres.
  - rewrite Hreal; [exact Hres | vm_compute; repeat constructor].
Defined.

(** ** A real run whose calls all succeed *)

(** For label sets, the source labels found in the target are the
    target's labels. *)
Lemma to_skip_names T src :
  NoDup (name <$> src) → NoDup (label_name <$> T) →
  label_name <$> T ⊆ name <$> src →
  name <$> to_skip T src ≡ₚ label_name <$> T.
Proof.
  intros Hsrc HT Hsub. apply NoDup_Permutation; [|done|].
  - eapply sublist_NoDup; [exact Hsrc|]. apply fmap_sublist, sublist_filter.
  - intros n. unfold to_skip. rewrite list_elem_of_fmap. split.
    + intros (l & -> & [Hl _]%list_elem_of_filter). exact Hl.
    + intros Hn. destruct (proj1 (list_elem_of_fmap _ _ _) (Hsub _ Hn)) as (l & -> & Hl).
      exists l. split; [done|]. by apply list_elem_of_filter.
Qed.

(** C1: for a source label set [src] and a target whose label set [T] is
    included in it by name, a real run in which the fetch and every
    create call are answered returns created = |src − T|, skipped = |T|
    and errors = 0; the labels reported as created are those of
    [src − T] in source order, the ones reported as skipped are those of
    [T], none is reported as failed, and the server ends up with [T]
    followed by the labels of [src − T]. *)
Theorem sync_creates_difference src target_repo w r :
  gh_repos w !! url target_repo = Some r →
  NoDup (name <$> src) →
  NoDup (label_name <$> gr_labels r) →
  label_name <$> gr_labels r ⊆ name <$> src →
  no_fault (S (length (to_create (gr_labels r) src))) w →
  ∃ w',
    sync_labels_to_repo src target_repo false w
    = (Ok (length (to_create (gr_labels r) src), length (gr_labels r), 0), w') ∧
    created_of (printed w w') = name <$> to_create (gr_labels r) src ∧
    skipped_of (printed w w') ≡ₚ label_name <$> gr_labels r ∧
    errors_of (printed w w') = [] ∧
    requested w w' = ReqGetLabels (url target_repo)
                       :: (create_request target_repo <$> to_create (gr_labels r) src) ∧
    labels_at (url target_repo) w'
    = gr_labels r ++ (stored_label <$> to_create (gr_labels r) src).
Proof.
  intros Hr Hsrc HT Hsub Hf.
  pose proof (to_skip_names _ _ Hsrc HT Hsub) as Hperm.
  assert (length (to_skip (gr_labels r) src) = length (gr_labels r)) as Hlen.
  { apply Permutation_length in Hperm. by rewrite !length_fmap in Hperm. }
  rewrite (reconcile_clean _ _ _ r), Hlen by done.
  eexists. split; [done|].
  erewrite printed_app, requested_app by done.
  rewrite !created_of_app, !skipped_of_app, !errors_of_app.
  rewrite created_of_report, skipped_of_report, errors_of_report.
  rewrite to_create_dict, to_skip_dict. simpl.
  rewrite !app_nil_r. split_and!; try done.
  unfold labels_at. simpl. by rewrite lookup_insert_eq.
Qed.

Lemma sync_creates_difference_witness :
  ∃ w', sync_labels_to_repo canonical svc_a false (boot acme []) = (Ok (1, 1, 0), w')
        ∧ created_of (printed (boot acme []) w') = ["docs"]
        ∧ labels_at "acme/svc-a" w' = [bug; stored_label canonical_docs].
Proof.
  destruct (sync_creates_difference canonical svc_a (boot acme [])
              {| gr_full_name := "acme/svc-a"; gr_organization := Some "acme";
                 gr_labels := [bug] |})
    as (w' & Hrun & Hc & _ & _ & _ & Hl).
  - vm_compute. reflexivity.
  - compute_done.
  - compute_done.
  - compute_done.
  - vm_compute. repeat constructor.
  - exists w'. split_and!; [exact Hrun | exact Hc | exact Hl].
Defined.

(** ** Running twice *)

Lemma get_labels_answered target_repo w r :
  gh_repos w !! url target_repo = Some r → no_fault 1 w →
  (Repository_get_labels target_repo w).1 = Ok (gr_labels r).
Proof.
  intros Hr Hf. unfold Repository_get_labels, bind.
  rewrite (no_fault_send 0) by done. simpl. by rewrite Hr.
Qed.

Lemma reconcile_all_present src target_repo dry_run w T :
  (Repository_get_labels target_repo w).1 = Ok T →
  Forall (present T) src →
  sync_labels_to_repo src target_repo dry_run w
  = (Ok (0, length src, 0),
     emit (banner target_repo ++ ((λ l, LAlreadyExists (name l)) <$> src)
           ++ summary target_repo 0 (length src) 0)
       (sent (ReqGetLabels (url target_repo)) w)).
Proof.
  intros HT Hall. destruct (get_labels_ok _ _ _ HT) as (Hfetch & _).
  rewrite sync_labels_to_repo_eq, Hfetch, sync_loop_all_present.
  - cbv iota beta. by rewrite !emit_emit.
  - eapply Forall_impl; [exact Hall|]. intros l Hl. by apply dict_by_name_lookup.
Qed.

(** After the missing labels are stored, every source label is present. *)
Lemma all_present_after T src :
  Forall (present (T ++ (stored_label <$> to_create T src))) src.
Proof.
  apply Forall_forall. intros l Hl. unfold present. rewrite fmap_app, elem_of_app.
  destruct (decide (present T l)) as [Hp|Hp]; [by left|right].
  rewrite <- list_fmap_compose. apply list_elem_of_fmap. exists l. split; [done|].
  by apply list_elem_of_filter.
Qed.

Lemma skipped_of_all src : skipped_of ((λ l, LAlreadyExists (name l)) <$> src) = name <$> src.
Proof. induction src as [|l src IH]; [done|]. rewrite !fmap_cons. simpl. by f_equal. Qed.

Lemma created_of_all src : created_of ((λ l, LAlreadyExists (name l)) <$> src) = [].
Proof. induction src as [|l src IH]; [done|]. rewrite fmap_cons. simpl. exact IH. Qed.

(** C9, as the code has it: after a real run in which the fetch and
    every create call were answered, a second run on the same source
    (dry or not) whose fetch is answered creates nothing and skips every
    source label; it sends the fetch and nothing else. *)
Theorem sync_twice_creates_nothing src target_repo dry_run w r :
  gh_repos w !! url target_repo = Some r →
  no_fault (2 + length (to_create (gr_labels r) src)) w →
  let first := sync_labels_to_repo src target_repo false w in
  let second := sync_labels_to_repo src target_repo dry_run first.2 in
  first.1 = Ok (length (to_create (gr_labels r) src), length (to_skip (gr_labels r) src), 0)
  ∧ second.1 = Ok (0, length src, 0)
  ∧ created_of (printed first.2 second.2) = []
  ∧ skipped_of (printed first.2 second.2) = name <$> src
  ∧ requested first.2 second.2 = [ReqGetLabels (url target_repo)]
  ∧ gh_repos second.2 = gh_repos first.2.
Proof.
  intros Hr Hf first second. subst first second.
  rewrite (reconcile_clean _ _ _ r) by (done || by eapply no_fault_le, Hf; lia).
  cbn [fst snd].
  set (w1 := {| gh_repos := _ |}).
  assert ((Repository_get_labels target_repo w1).1
          = Ok (gr_labels r ++ (stored_label <$> to_create (gr_labels r) src))) as HT.
  { rewrite (get_labels_answered _ _
               (with_labels r (stored_label <$> to_create (gr_labels r) src))); [done | |].
    - unfold w1. simpl. by rewrite lookup_insert_eq.
    - unfold no_fault, w1 in *. simpl.
      replace (2 + length (to_create (gr_labels r) src))
        with (S (length (to_create (gr_labels r) src)) + 1) in Hf by lia.
      rewrite <- take_take_drop in Hf. by apply Forall_app in Hf as [_ ?]. }
  rewrite (reconcile_all_present _ _ _ _ _ HT) by apply all_present_after.
  cbn [fst snd]. split_and!; try done.
  - erewrite printed_app by done.
    by rewrite !created_of_app, created_of_all.
  - erewrite printed_app by done.
    by rewrite !skipped_of_app, skipped_of_all, app_nil_r.
  - by apply requested_app.
Qed.

Lemma sync_twice_creates_nothing_witness :
  (sync_labels_to_repo canonical svc_a false (boot acme [])).1 = Ok (1, 1, 0)
  ∧ (sync_labels_to_repo canonical svc_a false
       (sync_labels_to_repo canonical svc_a false (boot acme [])).2).1 = Ok (0, 2, 0).
Proof.
  destruct (sync_twice_creates_nothing canonical svc_a false (boot acme [])
              {| gr_full_name := "acme/svc-a"; gr_organization := Some "acme";
                 gr_labels := [bug] |})
    as (H1 & H2 & _).
  - vm_compute. reflexivity.
  - vm_compute. repeat constructor.
  - split; [exact H1 | exact H2].
Defined.

(** C9 as stated fails: when a create call of the first run failed, or
    when the first run was a dry run, the label is still missing and the
    second run creates it, although nothing but the first run touched
    the target. *)
Lemma sync_twice_counterexample :
  let failed_once := boot acme [None; Some rate_limited] in
  let first := sync_labels_to_repo canonical svc_a false failed_once in
  let second := sync_labels_to_repo canonical svc_a false first.2 in
  let dry_first := sync_labels_to_repo canonical svc_a true (boot acme []) in
  let dry_second := sync_labels_to_repo canonical svc_a true dry_first.2 in
  first.1 = Ok (0, 1, 1)
  ∧ second.1 = Ok (1, 1, 0)
  ∧ created_of (printed first.2 second.2) = ["docs"]
  ∧ dry_first.1 = Ok (1, 1, 0)
  ∧ dry_second.1 = Ok (1, 1, 0)
  ∧ second.1 ≠ Ok (0, length canonical, 0)
  ∧ dry_second.1 ≠ Ok (0, length canonical, 0).
Proof. vm_compute. split_and!; done. Qed.

(** ** Additive only *)

Lemma skipped_of_reports dry_run existing src out :
  Forall2 (reports dry_run existing) src out →
  skipped_of out = name <$> filter (λ l, is_Some (existing !! name l)) src.
Proof.
  induction 1 as [|l line src out Hl _ IH]; [done|]. unfold reports in Hl.
  destruct (decide (is_Some (existing !! name l))).
  - rewrite filter_cons_True, fmap_cons by done. subst line. simpl. by f_equal.
  - rewrite filter_cons_False by done.
    destruct dry_run; [by subst line|]. by destruct Hl as [->|[m ->]].
Qed.

Lemma total_errors_of_reports dry_run existing src out :
  Forall2 (reports dry_run existing) src out → total_errors_of out = [].
Proof.
  induction 1 as [|l line src out Hl _ IH]; [done|]. unfold reports in Hl.
  destruct (decide (is_Some (existing !! name l))); [by subst line|].
  destruct dry_run; [by subst line|]. by destruct Hl as [->|[m ->]].
Qed.

Lemma grown_labels u added w w' :
  grown u added w w' →
  labels_at u w' = labels_at u w ++ added
  ∧ ∀ k, k ≠ u → gh_repos w' !! k = gh_repos w !! k.
Proof.
  unfold grown, labels_at. destruct (gh_repos w !! u) as [r|] eqn:Hr.
  - intros ->. rewrite lookup_insert_eq. split; [done|].
    intros k Hk. by rewrite lookup_insert_ne.
  - intros [-> ->]. by rewrite Hr.
Qed.

(** C7: whatever the remote answers, dry run or not, the requests of a
    reconciliation are the fetch followed by create calls, each for a
    source label whose name the target does not have; the target keeps
    every label it had, unchanged and in place, and only gains labels
    under new names; no other repository changes.  The labels reported
    as skipped are source labels whose name the target has, in source
    order: all of them whenever the reconciliation returns, which it
    does when every failure carries a dict; the ones before the failed
    create call when the handler stops the run. *)
Theorem sync_is_additive src target_repo dry_run w :
  let run := sync_labels_to_repo src target_repo dry_run w in
  let w' := run.2 in
  let T := labels_at (url target_repo) w in
  (∃ qs, requested w w' = ReqGetLabels (url target_repo) :: qs ∧
         Forall (λ q, ∃ l, l ∈ src ∧ ¬ present T l ∧ q = create_request target_repo l) qs)
  ∧ (∃ added, labels_at (url target_repo) w' = T ++ added ∧
              Forall (λ g, label_name g ∉ label_name <$> T) added)
  ∧ (∀ k, k ≠ url target_repo → gh_repos w' !! k = gh_repos w !! k)
  ∧ (∀ T', (Repository_get_labels target_repo w).1 = Ok T' →
       skipped_of (printed w w') `prefix_of` name <$> to_skip T src
       ∧ ((∃ counts, run.1 = Ok counts) →
          skipped_of (printed w w') = name <$> to_skip T src)
       ∧ (dict_faults w → skipped_of (printed w w') = name <$> to_skip T src)).
Proof.
  intros run w' T. subst run w' T.
  destruct (Repository_get_labels target_repo w) as [[T0|ex] w1] eqn:Hfetch.
  - assert ((Repository_get_labels target_repo w).1 = Ok T0) as HT0 by by rewrite Hfetch.
    destruct (get_labels_ok _ _ _ HT0) as (_ & HTeq & _).
    destruct (reconcile_general src target_repo dry_run w T0 HT0)
      as (res & w' & out & added & pre & post & -> & Hsrc & Hrep & Hg & Hsub & _ & _
          & Hcase).
    cbn [fst snd]. destruct (grown_labels _ _ _ _ Hg) as [Hl Hother].
    rewrite HTeq in *.
    assert (∀ ls, (∀ l, l ∈ ls → l ∈ src) →
              Forall (λ q, ∃ l, l ∈ src ∧ ¬ present T0 l ∧ q = create_request target_repo l)
                (create_request target_repo <$> to_create T0 ls)) as Hcreates.
    { intros ls Hin. apply Forall_fmap, Forall_forall.
      intros l [Hl1 Hl2]%list_elem_of_filter. simpl. eauto. }
    assert (skipped_of out = name <$> to_skip T0 pre) as Hskip.
    { by rewrite (skipped_of_reports _ _ _ _ Hrep), to_skip_dict. }
    split_and!.
    + destruct Hcase as [(-> & _ & _ & Hq)|(l & rest & -> & _ & -> & _ & _ & _ & Hq)].
      * eexists. split; [by apply requested_app|].
        destruct dry_run; [by apply Forall_nil|]. apply Hcreates.
        intros l Hl'. rewrite Hsrc. apply elem_of_app. by left.
      * eexists. split; [by apply requested_app|]. apply Hcreates.
        intros l' Hl'. rewrite Hsrc.
        apply elem_of_app in Hl' as [?|Hl'%list_elem_of_singleton];
          apply elem_of_app; [by left | right; subst l'; by left].
    + exists added. split; [by rewrite Hl|].
      apply Forall_forall. intros g Hg'.
      apply (elem_of_sublist _ _ _ Hg') in Hsub.
      apply list_elem_of_fmap in Hsub as (l & -> & [Hl1 _]%list_elem_of_filter).
      exact Hl1.
    + exact Hother.
    + intros _ _.
      destruct Hcase as [(-> & -> & Hout & _)|(l & rest & -> & _ & -> & -> & Hnd & Hout & _)].
      * rewrite app_nil_r in Hsrc. subst pre.
        rewrite (printed_app _ _ _ Hout), !skipped_of_app, Hskip. simpl.
        rewrite app_nil_r. done.
      * rewrite (printed_app _ _ _ Hout), !skipped_of_app, Hskip, Hsrc. simpl.
        split_and!; [|by intros [? ?] | done].
        unfold to_skip. rewrite filter_app, fmap_app. by apply prefix_app_r.
  - destruct (sync_labels_to_repo_fetch_failed src _ dry_run _ _ _ Hfetch) as (e & -> & ->).
    cbn [fst snd]. split_and!.
    + exists []. split; [by apply requested_app | constructor].
    + exists []. rewrite app_nil_r. split; [done | constructor].
    + done.
    + by intros T' [=].
Qed.

Lemma sync_is_additive_witness :
  skipped_of (printed (boot acme [])
                (sync_labels_to_repo canonical svc_a false (boot acme [])).2) = ["bug"].
Proof.
  destruct (sync_is_additive canonical svc_a false (boot acme [])) as (_ & _ & _ & H).
  destruct (H [bug]) as (_ & _ & Hskip); [vm_compute; reflexivity|].
  rewrite Hskip; [vm_compute; reflexivity | constructor].
Defined.

(** ** One target of the orchestrator *)

Lemma total_errors_of_app o1 o2 :
  total_errors_of (o1 ++ o2) = total_errors_of o1 ++ total_errors_of o2.
Proof. apply omap_app. Qed.

Lemma get_repo_cases n w :
  (∃ r, gh_repos w !! n = Some r ∧ no_fault 1 w ∧
        get_repo n w = (Ok {| url := n; full_name := gr_full_name r;
                              organization := gr_organization r |},
                        sent (ReqGetRepo n) w))
  ∨ (∃ e, get_repo n w = (Raise (GithubExc e), sent (ReqGetRepo n) w)).
Proof.
  unfold get_repo, bind, send, no_fault.
  destruct (gh_faults w) as [|[e|] fs] eqn:Hf; simpl; [|by eauto|];
    (destruct (gh_repos w !! n) as [r|] eqn:Hr; [left | right]); eauto 6.
Qed.

(** A reconciliation ends in a result, in the [GithubException] of its
    fetch, or in the [AttributeError] of its handler; it prints no final
    summary, and after the fetch it only sends create calls to its
    target. *)
Lemma sync_labels_to_repo_outcome src target_repo dry_run w :
  ∃ res w' out qs,
    sync_labels_to_repo src target_repo dry_run w = (res, w') ∧
    ((∃ counts, res = Ok counts)
     ∨ (∃ e, res = Raise (GithubExc e) ∧ gh_repos w' = gh_repos w)
     ∨ (res = Raise AttributeError ∧ ¬ dict_faults w)) ∧
    stdout w' = stdout w ++ out ∧ total_errors_of out = [] ∧
    gh_requests w' = gh_requests w ++ ReqGetLabels (url target_repo) :: qs ∧
    Forall (λ q, address q = url target_repo ∧ is_create q = true) qs ∧
    gh_faults w' `suffix_of` gh_faults w.
Proof.
  destruct (Repository_get_labels target_repo w) as [[T0|ex] w1] eqn:Hfetch.
  - assert ((Repository_get_labels target_repo w).1 = Ok T0) as HT0 by by rewrite Hfetch.
    destruct (reconcile_general src target_repo dry_run w T0 HT0)
      as (res & w' & out & added & pre & post & Hrun & _ & Hrep & _ & _ & _ & Hfl
          & [(_ & -> & Hout & Hq)|(l & rest & _ & _ & -> & -> & Hnd & Hout & Hq)]).
    + eexists _, w', _, _.
      split_and!; [exact Hrun | eauto | exact Hout | | exact Hq | | exact Hfl].
      * rewrite !total_errors_of_app, (total_errors_of_reports _ _ _ _ Hrep). done.
      * destruct dry_run; [by apply Forall_nil|]. apply Forall_fmap, Forall_forall. done.
    + eexists _, w', _, _.
      split_and!; [exact Hrun | eauto | exact Hout | | exact Hq | | exact Hfl].
      * rewrite !total_errors_of_app, (total_errors_of_reports _ _ _ _ Hrep). done.
      * apply Forall_fmap, Forall_forall. done.
  - destruct (sync_labels_to_repo_fetch_failed src _ dry_run _ _ _ Hfetch) as (e & -> & Hrun).
    eexists _, _, (banner target_repo), [].
    split_and!; [exact Hrun | | done.. | apply faults_sent]. right. left. eauto.
Qed.

Section Targets.
Context (py_repr : PyVal → string) (org_name : string) (source_labels : list Label).

Local Notation "'full'" :=
  (λ repo_name : PyVal, org_name +:+ "/" +:+ py_format py_repr repo_name) (only parsing).

(** What one target leaves behind: a test on everything between [w]
    and [w'], for the target [repo_name].  The [AttributeError] of the
    label handler is the one exception that gets past the target. *)
Lemma sync_target_outcome repo_name tc ts te w :
  ∃ res w' out qs,
    sync_target py_repr org_name source_labels repo_name (tc, ts, te) w = (res, w') ∧
    ((∃ c s e, res = Ok (tc + c, ts + s, te + e))
     ∨ (res = Raise AttributeError ∧ ¬ dict_faults w)) ∧
    stdout w' = stdout w ++ out ∧ total_errors_of out = [] ∧
    gh_requests w' = gh_requests w ++ ReqGetRepo (full repo_name) :: qs ∧
    Forall (λ q, address q = full repo_name ∧ q ≠ ReqGetRepo (full repo_name)) qs ∧
    gh_faults w' `suffix_of` gh_faults w.
Proof.
  unfold sync_target, try_except, bind.
  destruct (get_repo_cases (full repo_name) w) as [(r & Hr & _ & ->)|(ex & ->)].
  - set (target_repo := {| url := full repo_name |}).
    destruct (sync_labels_to_repo_outcome source_labels target_repo false
                (sent (ReqGetRepo (full repo_name)) w))
      as (res & w' & out & qs & -> & Hres & Hout & Hno & Hq & Hqs & Hfl).
    assert (Forall (λ q, address q = full repo_name ∧ q ≠ ReqGetRepo (full repo_name))
              (ReqGetLabels (full repo_name) :: qs)) as Hall.
    { constructor; [done|]. eapply Forall_impl; [exact Hqs|].
      intros q [? ?]. split; [done|]. by destruct q. }
    assert (gh_faults w' `suffix_of` gh_faults w) as Hfl'.
    { etrans; [exact Hfl|]. apply faults_sent. }
    destruct Hres as [([[c s] e] & ->)|[(e & -> & _)|(-> & Hnd)]].
    + eexists _, w', out, (ReqGetLabels (full repo_name) :: qs).
      split_and!; [done | left; eauto | done | done | | done | done].
      simpl in Hq. by rewrite Hq, <- app_assoc.
    + eexists _, _, (out ++ [_]), (ReqGetLabels (full repo_name) :: qs).
      split_and!; [done | left; exists 0, 0, 1; by rewrite !Nat.add_0_r, Nat.add_1_r
                  | | | | done | done].
      * simpl. by rewrite Hout, <- app_assoc.
      * by rewrite total_errors_of_app, Hno.
      * simpl in *. by rewrite Hq, <- app_assoc.
    + eexists _, w', out, (ReqGetLabels (full repo_name) :: qs).
      split_and!; [done | right; split; [done|] | done | done | | done | done].
      * intros Hd. apply Hnd. by apply dict_faults_sent.
      * simpl in Hq. by rewrite Hq, <- app_assoc.
  - eexists _, _, [_], [].
    split_and!; [done | left; exists 0, 0, 1; by rewrite !Nat.add_0_r, Nat.add_1_r
                | done.. | by apply Forall_nil | apply faults_sent].
Qed.

Lemma sync_targets_cons repo_name rest totals w :
  sync_targets py_repr org_name source_labels (repo_name :: rest) totals w
  = match sync_target py_repr org_name source_labels repo_name totals w with
    | (Ok totals', w') => sync_targets py_repr org_name source_labels rest totals' w'
    | (Raise e, w') => (Raise e, w')
    end.
Proof. done. Qed.

(** The loop over the targets runs to its end, or stops inside a target
    with the [AttributeError] of the label handler; target after target,
    as far as it gets ([reached]), it asks for the repository
    [org_name/repo_name] and then only talks to that repository. *)
Lemma sync_targets_outcome repos : ∀ totals w,
  ∃ res w' out qss reached,
    sync_targets py_repr org_name source_labels repos totals w = (res, w') ∧
    stdout w' = stdout w ++ out ∧ total_errors_of out = [] ∧
    gh_requests w' = gh_requests w ++ concat qss ∧
    reached `prefix_of` repos ∧
    Forall2 (λ repo_name, talks_to (full repo_name)) reached qss ∧
    gh_faults w' `suffix_of` gh_faults w ∧
    ((∃ totals', res = Ok totals' ∧ reached = repos)
     ∨ (res = Raise AttributeError ∧ ¬ dict_faults w ∧ reached ≠ [])).
Proof.
  induction repos as [|repo_name rest IH]; intros [[tc ts] te] w.
  - exists (Ok (tc, ts, te)), w, [], [], []. simpl. rewrite !app_nil_r.
    split_and!; try done. left. eauto.
  - rewrite sync_targets_cons.
    destruct (sync_target_outcome repo_name tc ts te w)
      as (res1 & w1 & out1 & qs1 & -> & Hres1 & Hout1 & Hno1 & Hq1 & Hqs1 & Hfl1).
    destruct Hres1 as [(c & s & e & ->)|(-> & Hnd)].
    + destruct (IH (tc + c, ts + s, te + e) w1)
        as (res & w' & out & qss & reached & -> & Hout & Hno & Hq & Hpre & Hqss & Hfl
            & Hcase).
      exists res, w', (out1 ++ out), ((ReqGetRepo (full repo_name) :: qs1) :: qss),
        (repo_name :: reached).
      split_and!; [done | | | | by apply prefix_cons | | by etrans |].
      * by rewrite Hout, Hout1, <- app_assoc.
      * by rewrite total_errors_of_app, Hno1, Hno.
      * simpl. by rewrite Hq, Hq1, <- !app_assoc.
      * constructor; [by eexists | done].
      * destruct Hcase as [(totals' & -> & ->)|(-> & Hnd & _)]; [left; eauto|].
        right. split_and!; [done | | done].
        intros Hd. apply Hnd. by apply (dict_faults_later w).
    + exists (Raise AttributeError), w1, out1, [ReqGetRepo (full repo_name) :: qs1],
        [repo_name].
      split_and!; [done | done | done | | | | done | by right].
      * simpl. by rewrite Hq1, app_nil_r.
      * apply prefix_cons, prefix_nil.
      * constructor; [by eexists | constructor].
Qed.

(** When every failure carries a dict, the loop runs to its end. *)
Lemma sync_targets_returns repos totals w :
  dict_faults w →
  ∃ totals' w' out qss,
    sync_targets py_repr org_name source_labels repos totals w = (Ok totals', w') ∧
    stdout w' = stdout w ++ out ∧ total_errors_of out = [] ∧
    gh_requests w' = gh_requests w ++ concat qss ∧
    Forall2 (λ repo_name, talks_to (full repo_name)) repos qss.
Proof.
  intros Hd.
  destruct (sync_targets_outcome repos totals w)
    as (res & w' & out & qss & reached & Hrun & Hout & Hno & Hq & _ & Hqss & _
        & [(totals' & -> & ->)|(_ & Hnd & _)]); [|done].
  by exists totals', w', out, qss.
Qed.

End Targets.

(** ** [main] *)

Lemma for_each_print {A} (xs : list A) (f : A → Line) w :
  for_each xs (λ x, print (f x)) w = (Ok tt, emit (f <$> xs) w).
Proof.
  revert w. induction xs as [|x xs IH]; intros w; simpl.
  - by rewrite emit_nil.
  - unfold bind, print. by rewrite IH, emit_emit.
Qed.

Lemma get_repo_ok n w r :
  gh_repos w !! n = Some r → no_fault 1 w →
  get_repo n w = (Ok {| url := n; full_name := gr_full_name r;
                        organization := gr_organization r |}, sent (ReqGetRepo n) w).
Proof.
  intros Hr Hf. unfold get_repo, bind. rewrite (no_fault_send 0) by done.
  simpl. by rewrite Hr.
Qed.

Lemma load_repos_pure f w : load_repos f w = ((load_repos f (boot ∅ [])).1, w).
Proof. by destruct f as [[|[]]|]. Qed.

Lemma py_len_iter str_chars v :
  match py_len str_chars v, py_iter str_chars v with
  | Some n, Some items => n = length items
  | None, None => True
  | _, _ => False
  end.
Proof. destruct v; simpl; by rewrite ?length_fmap. Qed.

Section Main.
Context (py_repr : PyVal → string) (str_chars : string → list string).

(** Every run of [main] ends in one of three ways.  It stops before the
    first target, with exit status 1, at most the two requests about
    the source sent and no final summary.  Or it reads the source and
    the declared targets, visits every target in turn, prints one final
    summary with the totals of the loop and exits according to the
    total of errors.  Or the [AttributeError] of the label handler stops
    it inside a target: the targets up to that one were visited, there
    is no final summary and the exit status is 1. *)
Lemma main_outcome env w :
  let cur := default EmptyString (GITHUB_REPOSITORY env) in
  ∃ res w' out qs,
    main py_repr str_chars env w = (res, w') ∧
    stdout w' = stdout w ++ out ∧
    gh_requests w' = gh_requests w ++ qs ∧
    ((exit_code res = 1%Z ∧ total_errors_of out = [] ∧
      qs `prefix_of` [ReqGetRepo cur; ReqGetLabels cur] ∧
      gh_repos w' = gh_repos w ∧
      ¬ ∃ r org repos, source_readable env w r org
                       ∧ declared_targets str_chars env = Some repos)
     ∨ (∃ r org repos source_labels w1 tc ts te qss,
          source_readable env w r org ∧
          declared_targets str_chars env = Some repos ∧
          (sync_targets py_repr org source_labels repos (0, 0, 0) w1).1 = Ok (tc, ts, te) ∧
          total_errors_of out = [te] ∧
          res = (if bool_decide (0 < te) then Raise (SystemExit 1) else Ok tt) ∧
          qs = ReqGetRepo cur :: ReqGetLabels cur :: concat qss ∧
          Forall2 (λ repo_name,
                     talks_to (org +:+ "/" +:+ py_format py_repr repo_name))
                  repos qss)
     ∨ (∃ r org repos reached qss,
          source_readable env w r org ∧
          declared_targets str_chars env = Some repos ∧
          res = Raise AttributeError ∧
          total_errors_of out = [] ∧
          ¬ dict_faults w ∧
          qs = ReqGetRepo cur :: ReqGetLabels cur :: concat qss ∧
          reached `prefix_of` repos ∧ reached ≠ [] ∧
          Forall2 (λ repo_name,
                     talks_to (org +:+ "/" +:+ py_format py_repr repo_name))
                  reached qss)).
Proof.
  intros cur. unfold main.
  destruct (unset (GITHUB_TOKEN env)) eqn:Htok.
  { stopped. intros (r & org & repos & (? & _) & _). congruence. }
  destruct (unset (GITHUB_REPOSITORY env)) eqn:Hrepo.
  { stopped. intros (r & org & repos & (_ & ? & _) & _). congruence. }
  fold cur. unfold bind, try_except.
  destruct (get_repo_cases cur w) as [(r & Hr & Hf1 & Hget)|(e & Hget)]; rewrite Hget.
  2: { stopped. intros (r & org & repos & (_ & _ & Hr & _ & Hf) & _).
       rewrite (get_repo_ok _ _ r) in Hget; [done | done |].
       eapply no_fault_le, Hf; lia. }
  simpl. destruct (gr_organization r) as [org|] eqn:Horg.
  2: { stopped. intros (r' & org & repos & (_ & _ & Hr' & Horg' & _) & _).
       fold cur in Hr'. congruence. }
  simpl. unfold get_labels, bind. rewrite !get_labels_emit.
  set (source_repo := {| url := cur |}).
  destruct (get_labels_cases source_repo (sent (ReqGetRepo cur) w))
    as [(r' & Hr' & Hf2 & Hfetch)|(e & Hfetch)]; rewrite Hfetch.
  2: { stopped. intros (r' & org' & repos & (_ & _ & Hr' & _ & Hf) & _).
       apply (no_fault_S _ _ (ReqGetRepo cur)) in Hf.
       pose proof (get_labels_answered source_repo (sent (ReqGetRepo cur) w) r' Hr' Hf)
         as Hok.
       by rewrite Hfetch in Hok. }
  simpl in Hr'. rewrite Hr in Hr'. injection Hr' as <-.
  simpl. unfold declared_targets.
  destruct (repos_yaml env) as [file|] eqn:Hfile.
  2: { stopped. by intros (r' & org' & repos & _ & ?). }
  rewrite bool_decide_eq_false_2 by done.
  destruct file as [|data].
  { stopped. by intros (r' & org' & repos & _ & ?). }
  destruct data as [| | | |items|entries|].
  1-5,7: (stopped; by intros (r' & org' & repos & _ & ?)).
  simpl.
  set (downstream_repos := dict_get entries "repos" (VList [])).
  pose proof (py_len_iter str_chars downstream_repos) as Hlen.
  destruct (py_len str_chars downstream_repos) as [n|],
           (py_iter str_chars downstream_repos) as [repos|] eqn:Hiter; try done.
  2: { stopped. by intros (r' & org' & repos & _ & ?). }
  rewrite for_each_print.
  set (source_labels := _ <$> gr_labels r).
  match goal with |- context [sync_targets _ _ _ _ _ ?w0] => set (w1 := w0) end.
  assert (source_readable env w r org) as Hready.
  { split_and!; try done. by apply (no_fault_sent _ _ (ReqGetRepo cur)). }
  destruct (sync_targets_outcome py_repr org source_labels repos (0, 0, 0) w1)
    as (res & w2 & out & qss & reached & Hrun & Hout & Hno & Hq & Hpre & Hqss & _ & Hcase).
  rewrite Hrun.
  destruct Hcase as [([[tc ts] te] & -> & ->)|(-> & Hnd & Hne)].
  - exists (if bool_decide (0 < te) then Raise (SystemExit 1) else Ok tt),
      (emit (final_summary tc ts te) w2).
    eexists _, (ReqGetRepo cur :: ReqGetLabels cur :: concat qss).
    split_and!.
    + simpl. rewrite !emit_emit. by destruct (bool_decide (0 < te)).
    + simpl. rewrite Hout. unfold w1. simpl. rewrite <- !app_assoc. simpl. reflexivity.
    + simpl. rewrite Hq. unfold w1. simpl. by rewrite <- !app_assoc.
    + right. left. exists r, org, repos, source_labels, w1, tc, ts, te, qss.
      split_and!; try done.
      * by rewrite Hrun.
      * change (total_errors_of (?a :: ?b :: ?c :: ?d :: ?e :: ?l))
          with (total_errors_of l).
        by rewrite !total_errors_of_app, Hno, total_errors_of_items.
  - exists (Raise AttributeError), w2.
    eexists _, (ReqGetRepo cur :: ReqGetLabels cur :: concat qss).
    split_and!.
    + done.
    + rewrite Hout. unfold w1. simpl. rewrite <- !app_assoc. simpl. reflexivity.
    + rewrite Hq. unfold w1. simpl. by rewrite <- !app_assoc.
    + right. right. exists r, org, repos, reached, qss. split_and!; try done.
      * change (total_errors_of (?a :: ?b :: ?c :: ?d :: ?e :: ?l))
          with (total_errors_of l).
        by rewrite !total_errors_of_app, Hno, total_errors_of_items.
      * intros Hd. apply Hnd. unfold w1.
        by do 2 apply dict_faults_sent.
Qed.

End Main.

(** ** Exit status *)

Lemma source_fetch_ok env w r org :
  source_readable env w r org →
  ∃ labels, (source_fetch (default EmptyString (GITHUB_REPOSITORY env)) w).1 = Ok labels.
Proof.
  intros (_ & _ & Hr & _ & Hf). unfold source_fetch, bind.
  rewrite (get_repo_ok _ _ r) by (done || eapply no_fault_le, Hf; lia).
  apply (no_fault_S _ _ (ReqGetRepo (default EmptyString (GITHUB_REPOSITORY env)))) in Hf.
  set (source_repo := {| url := _ |}).
  pose proof (get_labels_answered source_repo (sent (ReqGetRepo (url source_repo)) w) r Hr Hf)
    as Hok.
  unfold get_labels, bind.
  destruct (Repository_get_labels source_repo _) as [[labels|ex] w1]; [|done].
  simpl. eauto.
Qed.

(** C4: the process exits with status 0 exactly when the run prints its
    final summary with a total of 0 errors, whatever the number of
    labels created; a total above 0 gives a non-zero status; when
    reading the source repository or its labels fails the status is
    non-zero, no request beyond the two about the source is sent and the
    server is left as it was; and with an empty list of targets a run
    that can read its source exits with status 0 after these two
    requests. *)
Theorem exit_code_reflects_errors py_repr str_chars env repos faults :
  let w := boot repos faults in
  let cur := default EmptyString (GITHUB_REPOSITORY env) in
  let run := main py_repr str_chars env w in
  (exit_code run.1 = 0%Z ↔ total_errors_of (stdout run.2) = [0])
  ∧ (∀ te, te ∈ total_errors_of (stdout run.2) → 0 < te → exit_code run.1 ≠ 0%Z)
  ∧ (∀ e, (source_fetch cur w).1 = Raise e →
       exit_code run.1 ≠ 0%Z
       ∧ gh_requests run.2 `prefix_of` [ReqGetRepo cur; ReqGetLabels cur]
       ∧ gh_repos run.2 = repos)
  ∧ (∀ r org, source_readable env w r org → declared_targets str_chars env = Some [] →
       exit_code run.1 = 0%Z
       ∧ gh_requests run.2 = [ReqGetRepo cur; ReqGetLabels cur]).
Proof.
  intros w cur run. subst run.
  destruct (main_outcome py_repr str_chars env w)
    as (res & w' & out & qs & -> & Hout & Hq & Hcases).
  cbn [fst snd]. simpl in Hout, Hq. rewrite Hout, Hq. clear Hout Hq.
  destruct Hcases as [(Hexit & Hno & Hpre & Hrepos & Hnot)
                     |[(r & org & targets & src & w1 & tc & ts & te & qss & Hready & Hdecl
                        & Hloop & Htot & -> & -> & Hqss)
                      |(r & org & targets & reached & qss & Hready & Hdecl & -> & Hno & _
                        & -> & Hpre & Hne & Hqss)]].
  - rewrite Hexit, Hno. split_and!.
    + split; done.
    + intros te Hte. by apply elem_of_nil in Hte.
    + done.
    + intros r org Hready Hdecl. destruct Hnot. eauto.
  - rewrite Htot. split_and!.
    + case_bool_decide as Hte; simpl; split; try done.
      * intros [= ->]. lia.
      * intros _. f_equal. lia.
    + intros te' Hte' Hpos. apply list_elem_of_singleton in Hte' as ->.
      by rewrite bool_decide_eq_true_2.
    + intros e He. destruct (source_fetch_ok _ _ _ _ Hready) as [labels Hok].
      fold cur in Hok. congruence.
    + intros r' org' _ Hdecl'. rewrite Hdecl in Hdecl'. injection Hdecl' as ->.
      apply Forall2_nil_inv_l in Hqss as ->. simpl in Hloop. injection Hloop as <- <- <-.
      done.
  - rewrite Hno. split_and!.
    + split; done.
    + intros te Hte. by apply elem_of_nil in Hte.
    + intros e He. destruct (source_fetch_ok _ _ _ _ Hready) as [labels Hok].
      fold cur in Hok. congruence.
    + intros r' org' _ Hdecl'. rewrite Hdecl in Hdecl'. injection Hdecl' as ->.
      by apply prefix_nil_inv in Hpre.
Qed.

Lemma exit_code_reflects_errors_witness :
  exit_code (main plain_repr no_chars (ci_env (VList [])) (boot acme [])).1 = 0%Z
  ∧ exit_code (main plain_repr no_chars (ci_env (VList [VStr "svc-a"]))
                 (boot acme [Some rate_limited])).1 ≠ 0%Z.
Proof.
  split.
  - destruct (exit_code_reflects_errors plain_repr no_chars (ci_env (VList [])) acme [])
      as (_ & _ & _ & H).
    apply (H {| gr_full_name := "acme/labels"; gr_organization := Some "acme";
                gr_labels := [bug; docs] |} "acme").
    + vm_compute. split_and!; try reflexivity. repeat constructor.
    + vm_compute. reflexivity.
  - destruct (exit_code_reflects_errors plain_repr no_chars
                (ci_env (VList [VStr "svc-a"])) acme [Some rate_limited])
      as (_ & _ & H & _).
    apply (H (GithubExc rate_limited)). vm_compute. reflexivity.
Defined.

(** ** Resolving the targets *)

Lemma string_app_length (a b : string) :
  String.length (a +:+ b) = String.length a + String.length b.
Proof. induction a as [|c a IH]; simpl; [done | by rewrite IH]. Qed.

(** C5: in a run that reads its source and a list of declared names,
    each declared name [r] the run gets to is asked for as [org/r],
    where [org] is the organisation of the source repository, in the
    order of declaration; every request of the run after the two about
    the source is the request for such an [org/r] or goes to it, so
    none is addressed to a bare name or to another owner; and [org/r]
    is never the bare [r].  The run gets to every declared name unless
    the [AttributeError] of the label handler stops it inside a target,
    which cannot happen when every failure carries a dict. *)
Theorem targets_resolve_in_source_org py_repr str_chars env w r org (names : list string) :
  source_readable env w r org →
  declared_targets str_chars env = Some (VStr <$> names) →
  let cur := default EmptyString (GITHUB_REPOSITORY env) in
  let run := main py_repr str_chars env w in
  ∃ reached qss,
    requested w run.2 = ReqGetRepo cur :: ReqGetLabels cur :: concat qss
    ∧ reached `prefix_of` names
    ∧ Forall2 (λ repo_name, talks_to (org +:+ "/" +:+ repo_name)) reached qss
    ∧ (run.1 ≠ Raise AttributeError → reached = names)
    ∧ (dict_faults w → reached = names)
    ∧ Forall (λ repo_name, org +:+ "/" +:+ repo_name ≠ repo_name) names.
Proof.
  intros Hready Hdecl cur run. subst run.
  assert (Forall (λ repo_name, org +:+ "/" +:+ repo_name ≠ repo_name) names) as Hbare.
  { apply Forall_forall. intros n _ Heq.
    apply (f_equal String.length) in Heq. rewrite !string_app_length in Heq.
    simpl in Heq. lia. }
  destruct (main_outcome py_repr str_chars env w)
    as (res & w' & out & qs & -> & Hout & Hq & Hcases).
  cbn [fst snd]. rewrite (requested_app _ _ _ Hq).
  destruct Hcases as [(_ & _ & _ & _ & Hnot)
                     |[(r' & org' & targets & src & w1 & tc & ts & te & qss & Hready' & Hdecl'
                        & _ & _ & _ & -> & Hqss)
                      |(r' & org' & targets & reached & qss & Hready' & Hdecl' & -> & _ & Hnd
                        & -> & Hpre & _ & Hqss)]].
  { destruct Hnot. eauto. }
  - rewrite Hdecl in Hdecl'. injection Hdecl' as <-.
    assert (org' = org) as ->.
    { destruct Hready as (_ & _ & Hr & Ho & _), Hready' as (_ & _ & Hr' & Ho' & _).
      congruence. }
    exists names, qss. split_and!; [done | done | | done | done | done].
    exact (proj1 (Forall2_fmap_l VStr _ names qss) Hqss).
  - rewrite Hdecl in Hdecl'. injection Hdecl' as <-.
    assert (org' = org) as ->.
    { destruct Hready as (_ & _ & Hr & Ho & _), Hready' as (_ & _ & Hr' & Ho' & _).
      congruence. }
    destruct Hpre as [later Hpre].
    apply fmap_app_inv in Hpre as (reached' & later' & -> & -> & ->).
    exists reached', qss. split_and!; [done | by apply prefix_app_r | | done | done | done].
    exact (proj1 (Forall2_fmap_l VStr _ reached' qss) Hqss).
Qed.

Lemma targets_resolve_in_source_org_witness :
  ∃ qss,
    requested (boot acme [])
      (main plain_repr no_chars (ci_env (VList [VStr "svc-a"])) (boot acme [])).2
    = ReqGetRepo "acme/labels" :: ReqGetLabels "acme/labels" :: concat qss
    ∧ Forall2 (λ repo_name, talks_to ("acme" +:+ "/" +:+ repo_name)) ["svc-a"] qss
    ∧ Forall (λ repo_name, "acme" +:+ "/" +:+ repo_name ≠ repo_name) ["svc-a"].
Proof.
  destruct (targets_resolve_in_source_org plain_repr no_chars
              (ci_env (VList [VStr "svc-a"])) (boot acme [])
              {| gr_full_name := "acme/labels"; gr_organization := Some "acme";
                 gr_labels := [bug; docs] |} "acme" ["svc-a"])
    as (reached & qss & Hq & _ & Hqss & _ & Hall & Hbare).
  - vm_compute. split_and!; try reflexivity. repeat constructor.
  - vm_compute. reflexivity.
  - rewrite Hall in Hqss by constructor. by exists qss.
Defined.

(** ** Isolated failures *)

Lemma sync_target_fetch_failed py_repr org_name source_labels repo_name tc ts te w
    target_repo w1 ex :
  get_repo (org_name +:+ "/" +:+ py_format py_repr repo_name) w = (Ok target_repo, w1) →
  (Repository_get_labels target_repo w1).1 = Raise ex →
  ∃ e,
    sync_target py_repr org_name source_labels repo_name (tc, ts, te) w
    = (Ok (tc, ts, S te),
       emit (banner target_repo ++
             [LTargetAccessFailed (org_name +:+ "/" +:+ py_format py_repr repo_name) (str_e e)])
         (sent (ReqGetLabels (url target_repo)) w1)).
Proof.
  intros Hget Hfetch. unfold sync_target, try_except, bind. rewrite Hget.
  destruct (Repository_get_labels target_repo w1) as [res w2] eqn:Hfetch'.
  simpl in Hfetch. subst res.
  destruct (sync_labels_to_repo_fetch_failed source_labels _ false _ _ _ Hfetch')
    as (e & -> & ->).
  exists e. unfold print. by rewrite emit_emit.
Qed.

(** C6, on the code.  A failed label fetch stays with its target: the
    target adds one error and nothing to created or skipped, the server
    is left as it was, and the orchestrator goes on with the targets
    after it.  A failed create call stays with its label when the
    exception carries a dict: the label moves the error counter by one,
    leaves one failure line, and the loop goes on with the labels after
    it, to the end when the later failures carry a dict too.  But when
    the exception carries no dict, as for a response without a body,
    the handler itself raises [AttributeError]: no error is recorded,
    the labels after that one are not processed, no summary is printed,
    and the exception passes the handler of [main], so that the targets
    after this one are never asked for and the process exits with
    status 1 without a final summary. *)
Theorem failures_are_isolated :
  (∀ py_repr org_name source_labels repo_name rest tc ts te w target_repo w1 ex,
     get_repo (org_name +:+ "/" +:+ py_format py_repr repo_name) w
     = (Ok target_repo, w1) →
     (Repository_get_labels target_repo w1).1 = Raise ex →
     ∃ w2,
       sync_target py_repr org_name source_labels repo_name (tc, ts, te) w
       = (Ok (tc, ts, S te), w2)
       ∧ created_of (printed w w2) = []
       ∧ skipped_of (printed w w2) = []
       ∧ gh_repos w2 = gh_repos w
       ∧ sync_targets py_repr org_name source_labels (repo_name :: rest) (tc, ts, te) w
         = sync_targets py_repr org_name source_labels rest (tc, ts, S te) w2)
  ∧ (∀ target_repo existing l rest c s e w ex message,
       ¬ is_Some (existing !! name l) →
       (Repository_create_label target_repo (name l) (color l) (description l) w).1
       = Raise (GithubExc ex) →
       failure_message ex = Some message →
       ∃ w1,
         sync_label target_repo false existing l (c, s, e) w = (Ok (c, s, S e), w1)
         ∧ printed w w1 = [LCreateFailed (name l) message]
         ∧ sync_loop target_repo false existing (l :: rest) (c, s, e) w
           = sync_loop target_repo false existing rest (c, s, S e) w1
         ∧ (dict_faults w →
            ∃ c' s' e' w',
              sync_loop target_repo false existing rest (c, s, S e) w1
              = (Ok (c', s', e'), w')
              ∧ c' + s' + e' = c + s + S e + length rest))
  ∧ (∀ target_repo existing l rest c s e w ex,
       ¬ is_Some (existing !! name l) →
       (Repository_create_label target_repo (name l) (color l) (description l) w).1
       = Raise (GithubExc ex) →
       failure_message ex = None →
       sync_loop target_repo false existing (l :: rest) (c, s, e) w
       = (Raise AttributeError, sent (create_request target_repo l) w))
  ∧ (let w := boot acme [None; Some bad_gateway] in
     let run := sync_labels_to_repo [canonical_docs; canonical_bug] svc_a false w in
     run.1 = Raise AttributeError
     ∧ printed w run.2 = banner svc_a
     ∧ requested w run.2
       = [ReqGetLabels "acme/svc-a"; create_request svc_a canonical_docs])
  ∧ (let w := boot acme [None; None; None; None; Some bad_gateway] in
     let run := main plain_repr no_chars (ci_env (VList [VStr "svc-a"; VStr "svc-b"])) w in
     run.1 = Raise AttributeError
     ∧ exit_code run.1 = 1%Z
     ∧ errors_of (printed w run.2) = []
     ∧ total_errors_of (printed w run.2) = []
     ∧ requested w run.2
       = [ReqGetRepo "acme/labels"; ReqGetLabels "acme/labels";
          ReqGetRepo "acme/svc-a"; ReqGetLabels "acme/svc-a";
          create_request svc_a canonical_docs]).
Proof.
  split_and!.
  - intros py_repr org_name source_labels repo_name rest tc ts te w target_repo w1 ex
      Hget Hfetch.
    destruct (sync_target_fetch_failed py_repr org_name source_labels repo_name tc ts te
                _ _ _ _ Hget Hfetch) as (e & Hstep).
    assert (w1 = sent (ReqGetRepo (org_name +:+ "/" +:+ py_format py_repr repo_name)) w)
      as Hw1.
    { destruct (get_repo_cases (org_name +:+ "/" +:+ py_format py_repr repo_name) w)
        as [(r & _ & _ & Heq)|(e0 & Heq)]; rewrite Heq in Hget; by inversion Hget. }
    eexists. split_and!; [exact Hstep | | | |].
    + erewrite printed_app; [|by rewrite Hw1]. done.
    + erewrite printed_app; [|by rewrite Hw1]. done.
    + by rewrite Hw1.
    + by rewrite sync_targets_cons, Hstep.
  - intros target_repo existing l rest c s e w ex message Hl Hfail Hm.
    destruct (create_label_cases target_repo l w) as [(r & _ & Heq)|(e0 & Heq & _)];
      rewrite Heq in Hfail; simpl in Hfail; [done|]. injection Hfail as ->.
    assert (sync_label target_repo false existing l (c, s, e) w
            = (Ok (c, s, S e), emit [LCreateFailed (name l) message]
                                 (sent (create_request target_repo l) w))) as Hstep.
    { by rewrite sync_label_real, Heq, Hm. }
    eexists. split_and!; [exact Hstep | by apply printed_app
                         | by rewrite sync_loop_cons, Hstep |].
    intros Hd.
    destruct (sync_loop_returns target_repo existing false rest c s (S e)
                (emit [LCreateFailed (name l) message]
                   (sent (create_request target_repo l) w)))
      as (c' & s' & e' & w' & out & added & Hrun & Hsum & _).
    { by apply (dict_faults_sent (create_request target_repo l)) in Hd. }
    by exists c', s', e', w'.
  - intros target_repo existing l rest c s e w ex Hl Hfail Hm.
    destruct (create_label_cases target_repo l w) as [(r & _ & Heq)|(e0 & Heq & _)];
      rewrite Heq in Hfail; simpl in Hfail; [done|]. injection Hfail as ->.
    by rewrite sync_loop_cons, sync_label_real, Heq, Hm.
  - vm_compute. split_and!; reflexivity.
  - vm_compute. split_and!; reflexivity.
Qed.

(** ** The list of targets *)

(** C8, on the code: a mapping without the [repos] key, or with an empty
    sequence under it, gives the empty list; but a [repos] key with an
    empty (null) value gives [None], on which [main] stops with a
    [TypeError] and exit status 1 before any target; and a document that
    is empty as a whole has no [get] at all. *)
Theorem load_repos_null_value w :
  (∀ entries,
     Forall (λ kv, kv.1 ≠ VStr "repos") entries →
     load_repos (Some (Parsed (VDict entries))) w = (Ok (VList []), w))
  ∧ load_repos (Some (Parsed (VDict [(VStr "repos", VList [])]))) w = (Ok (VList []), w)
  ∧ load_repos (Some (Parsed (VDict [(VStr "repos", VNone)]))) w = (Ok VNone, w)
  ∧ load_repos (Some (Parsed VNone)) w = (Raise AttributeError, w)
  ∧ (main plain_repr no_chars (ci_env VNone) (boot acme [])).1 = Raise TypeError
  ∧ exit_code (main plain_repr no_chars (ci_env VNone) (boot acme [])).1 = 1%Z
  ∧ exit_code (main plain_repr no_chars (ci_env (VList [])) (boot acme [])).1 = 0%Z.
Proof.
  split_and!; try (vm_compute; reflexivity).
  intros entries Hno. unfold load_repos, ret. do 2 f_equal.
  induction Hno as [|[k v] entries Hk _ IH]; [done|]. simpl in *.
  destruct k; try done. by rewrite decide_False by congruence.
Qed.

Lemma sync_tallies_partition_witness :
  ∃ c s e,
    (sync_labels_to_repo canonical svc_a false (boot acme [None; Some rate_limited])).1
    = Ok (c, s, e)
    ∧ c + s + e = length canonical
    ∧ e = length (errors_of (printed (boot acme [None; Some rate_limited])
                               (sync_labels_to_repo canonical svc_a false
                                  (boot acme [None; Some rate_limited])).2)).
Proof.
  destruct (sync_tallies_partition canonical svc_a false
              (boot acme [None; Some rate_limited]) [bug])
    as (Hsum & _ & Hret); [vm_compute; reflexivity|].
  destruct Hret as (c & s & e & Hrun).
  { left. dict_faults_now. }
  exists c, s, e. destruct (Hsum c s e Hrun) as (? & _ & _ & ?). done.
Defined.

(** * More of [sync_labels.py] *)

(** ** [get_labels] *)

(** [get_labels] sends one request and touches nothing else; it either
    passes on the [GithubException] of the remote, or returns one dict
    per label of the repository, in the order of the remote, with the
    same name and colour and with a description that is a string: the
    empty one when the remote has none. *)
Theorem get_labels_reads_remote repo w :
  let run := get_labels repo w in
  run.2 = sent (ReqGetLabels (url repo)) w
  ∧ ((∃ e, run.1 = Raise (GithubExc e))
     ∨ (∃ r, gh_repos w !! url repo = Some r
             ∧ run.1 = Ok (label_dict <$> gr_labels r)
             ∧ name <$> (label_dict <$> gr_labels r) = label_name <$> gr_labels r
             ∧ color <$> (label_dict <$> gr_labels r) = label_color <$> gr_labels r
             ∧ Forall2 (λ g l, description l = default EmptyString (label_description g))
                 (gr_labels r) (label_dict <$> gr_labels r))).
Proof.
  intros run. subst run. unfold get_labels, bind.
  destruct (get_labels_cases repo w) as [(r & Hr & _ & ->)|(e & ->)]; simpl.
  - split; [done|]. right. exists r. split_and!; try done.
    + by rewrite <- list_fmap_compose.
    + by rewrite <- list_fmap_compose.
    + apply Forall2_fmap_r, Forall_Forall2_diag, Forall_forall. done.
  - split; [done|]. left. eauto.
Qed.

(** ** A run of [main] that reaches its targets *)

Section Complete.
Context (py_repr : PyVal → string) (str_chars : string → list string).

(** With a readable source and a list of targets, [main] is its loop
    over the targets between a prelude and the final summary. *)
Lemma main_complete env w r org repos :
  source_readable env w r org →
  declared_targets str_chars env = Some repos →
  let cur := default EmptyString (GITHUB_REPOSITORY env) in
  main py_repr str_chars env w
  = match sync_targets py_repr org (label_dict <$> gr_labels r) repos (0, 0, 0)
            (emit (prelude_lines py_repr r org repos)
               (sent (ReqGetLabels cur) (sent (ReqGetRepo cur) w))) with
    | (Ok (tc, ts, te), w2) =>
        (if bool_decide (0 < te) then Raise (SystemExit 1) else Ok tt,
         emit (final_summary tc ts te) w2)
    | (Raise e, w2) => (Raise e, w2)
    end.
Proof.
  intros (Htok & Hrepo & Hr & Horg & Hf) Hdecl cur. fold cur in Hr.
  unfold main. rewrite Htok, Hrepo. fold cur. unfold bind, try_except.
  rewrite (get_repo_ok _ _ r) by (done || eapply no_fault_le, Hf; lia).
  simpl. rewrite Horg. simpl. unfold get_labels, bind. rewrite !get_labels_emit.
  apply (no_fault_S _ _ (ReqGetRepo cur)) in Hf.
  set (source_repo := {| url := cur |}).
  pose proof (get_labels_answered source_repo (sent (ReqGetRepo cur) w) r Hr Hf) as Hok.
  destruct (get_labels_ok _ _ _ Hok) as (-> & _). simpl.
  unfold declared_targets in Hdecl.
  destruct (repos_yaml env) as [[|data]|]; try done.
  destruct data as [| | | |items|entries|]; try done.
  simpl in Hdecl |- *.
  set (downstream_repos := dict_get entries "repos" (VList [])) in *.
  pose proof (py_len_iter str_chars downstream_repos) as Hlen.
  rewrite Hdecl in Hlen |- *.
  destruct (py_len str_chars downstream_repos) as [n|]; [|done]. subst n.
  rewrite for_each_print, !emit_emit, length_fmap. simpl.
  unfold prelude_lines. simpl.
  destruct (sync_targets _ _ _ _ _ _) as [[[[tc ts] te]|e] w2]; [|done].
  rewrite !emit_emit. simpl. by destruct (bool_decide (0 < te)).
Qed.

End Complete.

(** ** What a reconciliation sends and what the server gains *)

(** The snapshot of existing labels is taken once.  When every failure
    carries a dict, a real run sends one create call for each source
    entry whose name was absent at the fetch, in source order, whether
    earlier calls failed or not (a name listed twice is sent twice); a
    dry run sends none.  created + errors is the number of those
    entries, and skipped the number of the others. *)
Theorem sync_sends_one_create_per_missing src target_repo dry_run w T :
  (Repository_get_labels target_repo w).1 = Ok T →
  dict_faults w →
  ∃ c s e w',
    sync_labels_to_repo src target_repo dry_run w = (Ok (c, s, e), w')
    ∧ requested w w'
      = ReqGetLabels (url target_repo)
          :: (if dry_run then [] else create_request target_repo <$> to_create T src)
    ∧ c + e = length (to_create T src)
    ∧ s = length (to_skip T src).
Proof.
  intros HT Hd.
  destruct (reconcile_returns src target_repo dry_run w T HT Hd)
    as (c & s & e & w' & out & added & Hrun & Hsum & _ & Hrep & _ & Hs & _ & Hq & _).
  exists c, s, e, w'. rewrite (requested_app _ _ _ Hq).
  rewrite (skipped_of_reports _ _ _ _ Hrep), to_skip_dict, length_fmap in Hs.
  pose proof (create_skip_length T src). split_and!; try done; lia.
Qed.

Lemma sync_sends_one_create_per_missing_witness :
  ∃ c s e w',
    sync_labels_to_repo [canonical_docs; canonical_docs] svc_a false
      (boot acme [None; Some rate_limited]) = (Ok (c, s, e), w')
    ∧ requested (boot acme [None; Some rate_limited]) w'
      = [ReqGetLabels "acme/svc-a"; create_request svc_a canonical_docs;
         create_request svc_a canonical_docs]
    ∧ c + e = 2 ∧ s = 0.
Proof.
  apply (sync_sends_one_create_per_missing [canonical_docs; canonical_docs] svc_a false
           (boot acme [None; Some rate_limited]) [bug]).
  - vm_compute. reflexivity.
  - dict_faults_now.
Defined.

Section Gain.
Context (target_repo : Repository) (existing : gmap string GhLabel).

(** In a real run whose failures carry a dict the created counter moves
    with the server: the labels the repository gains are the ones
    reported as created, one for one and in the same order. *)
Lemma sync_loop_gain src : ∀ c s e w,
  dict_faults w →
  ∃ c' s' e' w' out added,
    sync_loop target_repo false existing src (c, s, e) w = (Ok (c', s', e'), w')
    ∧ stdout w' = stdout w ++ out
    ∧ grown (url target_repo) added w w'
    ∧ label_name <$> added = created_of out
    ∧ c' = c + length added
    ∧ e' = e + length (errors_of out).
Proof.
  induction src as [|l src IH]; intros c s e w Hd.
  - exists c, s, e, w, [], []. simpl. rewrite app_nil_r. split_and!; try done; try lia.
    unfold grown. destruct (gh_repos w !! url target_repo) eqn:Hr; [|done].
    by rewrite with_labels_nil, insert_id.
  - rewrite sync_loop_cons.
    destruct (decide (is_Some (existing !! name l))) as [Hl|Hl].
    { rewrite sync_label_skip by done.
      destruct (IH c (S s) e (emit [LAlreadyExists (name l)] w) Hd)
        as (c' & s' & e' & w' & out & added & Hrun & Hout & Hg & Hn & Hc & He).
      exists c', s', e', w', (LAlreadyExists (name l) :: out), added.
      simpl in *. split_and!; try done. by rewrite Hout, <- app_assoc. }
    rewrite sync_label_real by done.
    pose proof (dict_faults_sent (create_request target_repo l) w Hd) as Hd'.
    destruct (create_label_cases target_repo l w) as [(r & Hr & ->)|(ex & -> & Hex)].
    + destruct (IH (S c) s e (emit [LCreated (name l)]
                   (stored (url target_repo) (with_labels r [stored_label l])
                      (sent (create_request target_repo l) w))) Hd')
        as (c' & s' & e' & w' & out & added & Hrun & Hout & Hg & Hn & Hc & He).
      exists c', s', e', w', (LCreated (name l) :: out), (stored_label l :: added).
      simpl in *. split_and!; try done; try lia.
      * by rewrite Hout, <- app_assoc.
      * unfold grown in *. simpl in Hg. rewrite lookup_insert_eq in Hg.
        by rewrite Hr, Hg, insert_insert_eq, with_labels_app.
      * by rewrite <- Hn.
    + destruct (Hex Hd) as [m ->].
      destruct (IH c s (S e) (emit [LCreateFailed (name l) m]
                   (sent (create_request target_repo l) w)) Hd')
        as (c' & s' & e' & w' & out & added & Hrun & Hout & Hg & Hn & Hc & He).
      exists c', s', e', w', (LCreateFailed (name l) m :: out), added.
      simpl in *. split_and!; try done; try lia.
      by rewrite Hout, <- app_assoc.
Qed.

End Gain.

(** The counters of a real run whose failures carry a dict tell what
    happened on the server: the target ends with the labels it had
    followed by [created_count] new ones, which are the labels reported
    as created, in that order; and [error_count] is the number of
    failure lines. *)
Theorem created_count_is_server_gain src target_repo w T :
  (Repository_get_labels target_repo w).1 = Ok T →
  dict_faults w →
  ∃ c s e w' added,
    sync_labels_to_repo src target_repo false w = (Ok (c, s, e), w')
    ∧ labels_at (url target_repo) w' = T ++ added
    ∧ length added = c
    ∧ label_name <$> added = created_of (printed w w')
    ∧ e = length (errors_of (printed w w')).
Proof.
  intros HT Hd. destruct (get_labels_ok _ _ _ HT) as (Hfetch & HTeq & _).
  rewrite sync_labels_to_repo_eq, Hfetch.
  destruct (sync_loop_gain target_repo (dict_by_name T) src 0 0 0
              (emit (banner target_repo) (sent (ReqGetLabels (url target_repo)) w)))
    as (c & s & e & w' & out & added & -> & Hout & Hg & Hn & Hc & He).
  { by apply (dict_faults_sent (ReqGetLabels (url target_repo))) in Hd. }
  exists c, s, e, (emit (summary target_repo c s e) w'), added.
  destruct (grown_labels _ _ _ _ Hg) as [Hl _].
  assert (printed w (emit (summary target_repo c s e) w')
          = banner target_repo ++ out ++ summary target_repo c s e) as ->.
  { apply printed_app. simpl in *. by rewrite Hout, <- !app_assoc. }
  rewrite !created_of_app, !errors_of_app. simpl. rewrite !app_nil_r.
  split_and!; try done; try lia.
  unfold labels_at in *. simpl in *. by rewrite Hl, HTeq.
Qed.

Lemma created_count_is_server_gain_witness :
  ∃ c s e w' added,
    sync_labels_to_repo canonical svc_a false (boot acme []) = (Ok (c, s, e), w')
    ∧ labels_at (url svc_a) w' = [bug] ++ added
    ∧ length added = c
    ∧ label_name <$> added = created_of (printed (boot acme []) w')
    ∧ e = length (errors_of (printed (boot acme []) w')).
Proof.
  apply (created_count_is_server_gain canonical svc_a (boot acme []) [bug]).
  - vm_compute. reflexivity.
  - dict_faults_now.
Defined.

(** ** The totals of the orchestrator *)

Lemma summarised_of_app o1 o2 :
  summarised_of (o1 ++ o2) = summarised_of o1 ++ summarised_of o2.
Proof. apply omap_app. Qed.

Lemma unreachable_of_app o1 o2 :
  unreachable_of (o1 ++ o2) = unreachable_of o1 ++ unreachable_of o2.
Proof. apply omap_app. Qed.

Lemma target_lines_of_reports dry_run existing src out :
  Forall2 (reports dry_run existing) src out →
  summarised_of out = [] ∧ unreachable_of out = [].
Proof.
  induction 1 as [|l line src out Hl _ IH]; [done|]. unfold reports in Hl.
  destruct (decide (is_Some (existing !! name l))); [by subst line|].
  destruct dry_run; [by subst line|]. by destruct Hl as [->|[m ->]].
Qed.

Section Accounting.
Context (py_repr : PyVal → string) (org_name : string) (source_labels : list Label).

(** When every failure carries a dict, one target either gets a
    summary, and then accounts for every source label, or is reported
    out of reach, and then counts as one error. *)
Lemma sync_target_accounting repo_name tc ts te w :
  dict_faults w →
  ∃ c s e w' out,
    sync_target py_repr org_name source_labels repo_name (tc, ts, te) w
    = (Ok (tc + c, ts + s, te + e), w')
    ∧ stdout w' = stdout w ++ out
    ∧ dict_faults w'
    ∧ ((c + s + e = length source_labels
        ∧ length (summarised_of out) = 1 ∧ unreachable_of out = [])
       ∨ (c = 0 ∧ s = 0 ∧ e = 1 ∧ summarised_of out = []
          ∧ unreachable_of out = [org_name +:+ "/" +:+ py_format py_repr repo_name])).
Proof.
  intros Hd. unfold sync_target, try_except, bind.
  pose proof (dict_faults_sent
                (ReqGetRepo (org_name +:+ "/" +:+ py_format py_repr repo_name)) w Hd) as Hd1.
  destruct (get_repo_cases (org_name +:+ "/" +:+ py_format py_repr repo_name) w)
    as [(r & Hr & _ & ->)|(ex & ->)].
  - set (target_repo := {| url := org_name +:+ "/" +:+ py_format py_repr repo_name |}).
    set (w1 := sent _ w) in *.
    destruct (Repository_get_labels target_repo w1) as [[T|ex] w2] eqn:Hfetch.
    + assert ((Repository_get_labels target_repo w1).1 = Ok T) as HT by by rewrite Hfetch.
      destruct (reconcile_returns source_labels target_repo false w1 T HT Hd1)
        as (c & s & e & w' & out & added & -> & Hsum & Hout & Hrep & _ & _ & _ & _ & _ & _
            & _ & Hd').
      destruct (target_lines_of_reports _ _ _ _ Hrep) as [Hs Hu].
      exists c, s, e, w'. eexists. split_and!; [done | exact Hout | exact Hd' |].
      left. rewrite !summarised_of_app, !unreachable_of_app, Hs, Hu. done.
    + destruct (sync_labels_to_repo_fetch_failed source_labels _ false _ _ _ Hfetch)
        as (e & -> & ->).
      exists 0, 0, 1. eexists _, (banner target_repo ++ [_]).
      split_and!; [by rewrite !Nat.add_0_r, Nat.add_1_r | | |].
      * simpl. by rewrite <- app_assoc.
      * by apply (dict_faults_sent (ReqGetLabels (url target_repo))) in Hd1.
      * right. done.
  - exists 0, 0, 1. eexists _, [_].
    split_and!; [by rewrite !Nat.add_0_r, Nat.add_1_r | done | done |]. right. done.
Qed.

(** The loop over the targets, when every failure carries a dict: every
    target is either summarised or reported out of reach, and the three
    totals together grow by the number of source labels for each
    summarised target and by one for each target out of reach. *)
Lemma sync_targets_accounting repos : ∀ tc ts te w,
  dict_faults w →
  ∃ tc' ts' te' w' out,
    sync_targets py_repr org_name source_labels repos (tc, ts, te) w
    = (Ok (tc', ts', te'), w')
    ∧ stdout w' = stdout w ++ out
    ∧ length (summarised_of out) + length (unreachable_of out) = length repos
    ∧ tc' + ts' + te'
      = tc + ts + te + length (summarised_of out) * length source_labels
        + length (unreachable_of out)
    ∧ (te + length (unreachable_of out) ≤ te')%nat
    ∧ unreachable_of out
        `sublist_of` ((λ repo_name, org_name +:+ "/" +:+ py_format py_repr repo_name)
                        <$> repos).
Proof.
  induction repos as [|repo_name rest IH]; intros tc ts te w Hd.
  - exists tc, ts, te, w, []. simpl. rewrite app_nil_r. split_and!; try done; lia.
  - rewrite sync_targets_cons.
    destruct (sync_target_accounting repo_name tc ts te w Hd)
      as (c & s & e & w1 & out1 & -> & Hout1 & Hd1 & Hcase).
    destruct (IH (tc + c) (ts + s) (te + e) w1 Hd1)
      as (tc' & ts' & te' & w' & out & -> & Hout & Hlen & Hsum & Hle & Hsub).
    exists tc', ts', te', w', (out1 ++ out).
    rewrite summarised_of_app, unreachable_of_app, !length_app, fmap_cons.
    split_and!; [done | by rewrite Hout, Hout1, <- app_assoc | | | |].
    + simpl. destruct Hcase as [(_ & -> & ->)|(_ & _ & _ & -> & ->)]; simpl; lia.
    + destruct Hcase as [(? & -> & ->)|(-> & -> & -> & -> & ->)]; simpl; nia.
    + destruct Hcase as [(? & _ & ->)|(_ & _ & -> & _ & ->)]; simpl; lia.
    + destruct Hcase as [(_ & _ & ->)|(_ & _ & _ & _ & ->)]; simpl.
      * by apply sublist_cons.
      * by apply sublist_skip.
Qed.

End Accounting.

(** Every label of every target is accounted for when every failure
    carries a dict: the loop of [main] then runs to its end, each
    declared target is either summarised or reported out of reach,
    total_created + total_skipped + total_errors is the number of source
    labels times the number of summarised targets plus the number of
    targets out of reach, and each target out of reach is one of the
    errors. *)
Theorem totals_account_for_every_target py_repr org_name source_labels repos w :
  dict_faults w →
  ∃ tc ts te w',
    sync_targets py_repr org_name source_labels repos (0, 0, 0) w = (Ok (tc, ts, te), w')
    ∧ length (summarised_of (printed w w')) + length (unreachable_of (printed w w'))
      = length repos
    ∧ tc + ts + te
      = length (summarised_of (printed w w')) * length source_labels
        + length (unreachable_of (printed w w'))
    ∧ (length (unreachable_of (printed w w')) ≤ te)%nat.
Proof.
  intros Hd.
  destruct (sync_targets_accounting py_repr org_name source_labels repos 0 0 0 w Hd)
    as (tc & ts & te & w' & out & Hrun & Hout & Hlen & Hsum & Hle & _).
  exists tc, ts, te, w'. rewrite (printed_app _ _ _ Hout).
  split_and!; try done; lia.
Qed.

Lemma totals_account_for_every_target_witness :
  let w := boot acme [None; None; Some rate_limited] in
  ∃ tc ts te w',
    sync_targets plain_repr "acme" canonical [VStr "svc-a"; VStr "svc-b"] (0, 0, 0) w
    = (Ok (tc, ts, te), w')
    ∧ length (summarised_of (printed w w')) + length (unreachable_of (printed w w')) = 2
    ∧ tc + ts + te
      = length (summarised_of (printed w w')) * 2 + length (unreachable_of (printed w w'))
    ∧ (length (unreachable_of (printed w w')) ≤ te)%nat.
Proof.
  apply (totals_account_for_every_target plain_repr "acme" canonical
           [VStr "svc-a"; VStr "svc-b"] (boot acme [None; None; Some rate_limited])).
  dict_faults_now.
Defined.

(** ** A run without failures *)

Lemma quiet_no_fault n w : quiet w → no_fault n w.
Proof. unfold quiet, no_fault. apply Forall_take. Qed.

Lemma quiet_sent q w : quiet w → quiet (sent q w).
Proof.
  unfold quiet. simpl. destruct (gh_faults w); [done|]. by inversion 1.
Qed.

Lemma present_prefix T T' l : T `prefix_of` T' → present T l → present T' l.
Proof.
  intros [k ->]. unfold present. rewrite fmap_app, elem_of_app. by left.
Qed.

Section Clean.
Context (py_repr : PyVal → string) (org_name : string) (source_labels : list Label).

Local Notation "'full'" :=
  (λ repo_name : PyVal, org_name +:+ "/" +:+ py_format py_repr repo_name) (only parsing).

(** One target, when nothing fails: the target gains the labels it was
    missing and nothing else changes. *)
Lemma sync_target_clean repo_name tc ts te w r :
  quiet w →
  gh_repos w !! full repo_name = Some r →
  ∃ c s w',
    sync_target py_repr org_name source_labels repo_name (tc, ts, te) w
    = (Ok (tc + c, ts + s, te), w')
    ∧ quiet w'
    ∧ gh_repos w'
      = <[full repo_name :=
            with_labels r (stored_label <$> to_create (gr_labels r) source_labels)]>
          (gh_repos w).
Proof.
  intros Hq Hr. unfold sync_target, try_except, bind.
  rewrite (get_repo_ok _ _ r) by (done || by apply quiet_no_fault).
  set (target_repo := {| url := full repo_name |}).
  rewrite (reconcile_clean source_labels target_repo _ r);
    [| done | by apply quiet_no_fault, quiet_sent].
  eexists _, _, _. split_and!.
  - by rewrite Nat.add_0_r.
  - unfold quiet in *. simpl. apply Forall_drop.
    destruct (gh_faults w); [done|]. by inversion Hq.
  - done.
Qed.

Lemma sync_targets_clean repos : ∀ tc ts te w,
  quiet w →
  (∀ repo_name, repo_name ∈ repos → is_Some (gh_repos w !! full repo_name)) →
  ∃ tc' ts' w',
    sync_targets py_repr org_name source_labels repos (tc, ts, te) w
    = (Ok (tc', ts', te), w')
    ∧ quiet w'
    ∧ (∀ k, labels_at k w `prefix_of` labels_at k w')
    ∧ (∀ k, is_Some (gh_repos w !! k) ↔ is_Some (gh_repos w' !! k))
    ∧ (∀ repo_name, repo_name ∈ repos →
         Forall (present (labels_at (full repo_name) w')) source_labels).
Proof.
  induction repos as [|repo_name rest IH]; intros tc ts te w Hq Hall.
  - exists tc, ts, w. split_and!; try done. intros rn Hrn. by apply elem_of_nil in Hrn.
  - rewrite sync_targets_cons.
    destruct (Hall repo_name) as [r Hr]; [by left|].
    destruct (sync_target_clean repo_name tc ts te w r Hq Hr)
      as (c & s & w1 & -> & Hq1 & Hrepos1).
    assert (∀ k, is_Some (gh_repos w !! k) ↔ is_Some (gh_repos w1 !! k)) as Hdom1.
    { intros k. rewrite Hrepos1. destruct (decide (full repo_name = k)) as [<-|Hne].
      - rewrite lookup_insert_eq, Hr. split; eauto.
      - by rewrite lookup_insert_ne. }
    assert (∀ k, labels_at k w `prefix_of` labels_at k w1) as Hpre1.
    { intros k. unfold labels_at. rewrite Hrepos1.
      destruct (decide (full repo_name = k)) as [<-|Hne].
      - rewrite lookup_insert_eq, Hr. simpl. by apply prefix_app_r.
      - by rewrite lookup_insert_ne. }
    destruct (IH (tc + c) (ts + s) te w1 Hq1)
      as (tc' & ts' & w' & -> & Hq' & Hpre & Hdom & Hconv).
    { intros rn Hrn. apply Hdom1, Hall. by right. }
    exists tc', ts', w'. split_and!; [done | done | | |].
    + intros k. by trans (labels_at k w1).
    + intros k. by rewrite Hdom1, Hdom.
    + intros rn [->|Hrn]%elem_of_cons; [|by apply Hconv].
      apply (Forall_impl (present (labels_at (full repo_name) w1)));
        [|intros l; by apply present_prefix].
      unfold labels_at. rewrite Hrepos1, lookup_insert_eq. simpl.
      apply all_present_after.
Qed.

End Clean.

(** End to end: when the source can be read, every declared target
    exists and no request fails, [main] exits with status 0, reports 0
    errors, and leaves every declared target with a label for each name
    of the source; no repository loses a label. *)
Theorem clean_run_converges py_repr str_chars env w r org repos :
  source_readable env w r org →
  declared_targets str_chars env = Some repos →
  quiet w →
  (∀ repo_name, repo_name ∈ repos →
     is_Some (gh_repos w !! (org +:+ "/" +:+ py_format py_repr repo_name))) →
  let run := main py_repr str_chars env w in
  exit_code run.1 = 0%Z
  ∧ total_errors_of (printed w run.2) = [0]
  ∧ (∀ repo_name, repo_name ∈ repos →
       label_name <$> gr_labels r
       ⊆ label_name <$> labels_at (org +:+ "/" +:+ py_format py_repr repo_name) run.2)
  ∧ (∀ k, labels_at k w `prefix_of` labels_at k run.2).
Proof.
  intros Hready Hdecl Hq Hall run. subst run.
  rewrite (main_complete py_repr str_chars env w r org repos Hready Hdecl).
  set (cur := default EmptyString (GITHUB_REPOSITORY env)).
  set (w1 := emit _ _).
  destruct (sync_targets_clean py_repr org (label_dict <$> gr_labels r) repos 0 0 0 w1)
    as (tc & ts & w2 & Hrun & _ & Hpre & _ & Hconv).
  { unfold w1. by do 2 apply quiet_sent. }
  { exact Hall. }
  rewrite Hrun. cbn [fst snd].
  destruct (sync_targets_returns py_repr org (label_dict <$> gr_labels r) repos
              (0, 0, 0) w1) as (totals' & w2' & out & qss & Hrun' & Hout & Hno & _).
  { apply quiet_dict_faults. unfold w1. by do 2 apply quiet_sent. }
  rewrite Hrun in Hrun'. injection Hrun' as <- <-.
  split_and!.
  - done.
  - erewrite printed_app; [|simpl; rewrite Hout; unfold w1; simpl;
                             by rewrite <- !app_assoc].
    rewrite !total_errors_of_app, Hno. unfold prelude_lines.
    rewrite total_errors_of_app, total_errors_of_items. done.
  - intros rn Hrn n Hn. apply list_elem_of_fmap in Hn as (g & -> & Hg).
    specialize (Hconv rn Hrn). rewrite Forall_forall in Hconv.
    apply (Hconv (label_dict g)). by apply list_elem_of_fmap_2.
  - intros k. apply (Hpre k).
Qed.

Lemma clean_run_converges_witness :
  exit_code (main plain_repr no_chars (ci_env (VList [VStr "svc-a"])) (boot acme [])).1 = 0%Z
  ∧ label_name <$> [bug; docs]
    ⊆ label_name <$> labels_at "acme/svc-a"
                       (main plain_repr no_chars (ci_env (VList [VStr "svc-a"]))
                          (boot acme [])).2.
Proof.
  destruct (clean_run_converges plain_repr no_chars (ci_env (VList [VStr "svc-a"]))
              (boot acme [])
              {| gr_full_name := "acme/labels"; gr_organization := Some "acme";
                 gr_labels := [bug; docs] |} "acme" [VStr "svc-a"])
    as (Hexit & _ & Hconv & _).
  - vm_compute. split_and!; try reflexivity. repeat constructor.
  - vm_compute. reflexivity.
  - vm_compute. constructor.
  - intros rn Hrn. apply list_elem_of_singleton in Hrn as ->. vm_compute. eauto.
  - split; [exact Hexit|]. apply (Hconv (VStr "svc-a")). by left.
Defined.

(** ** Runs of [main] that stop early *)

(** Without a token, or without the name of the current repository (an
    empty value counts as none), [main] prints one line and exits with
    status 1 before any request.  Without a usable list of targets
    ([repos.yaml] missing, unparseable, not a mapping, or with something
    under [repos] that has no length) it exits with status 1 having sent
    at most the two requests about the source, with no final summary and
    the server as it was. *)
Theorem main_refuses_bad_configuration py_repr str_chars env w :
  let cur := default EmptyString (GITHUB_REPOSITORY env) in
  let run := main py_repr str_chars env w in
  (unset (GITHUB_TOKEN env) = true →
     run = (Raise (SystemExit 1), emit [LTokenNotSet] w))
  ∧ (unset (GITHUB_TOKEN env) = false → unset (GITHUB_REPOSITORY env) = true →
     run = (Raise (SystemExit 1), emit [LRepositoryNotSet] w))
  ∧ (declared_targets str_chars env = None →
     exit_code run.1 = 1%Z
     ∧ requested w run.2 `prefix_of` [ReqGetRepo cur; ReqGetLabels cur]
     ∧ total_errors_of (printed w run.2) = []
     ∧ gh_repos run.2 = gh_repos w).
Proof.
  intros cur run. subst run. split_and!.
  - intros Htok. unfold main. by rewrite Htok.
  - intros Htok Hrepo. unfold main. by rewrite Htok, Hrepo.
  - intros Hdecl.
    destruct (main_outcome py_repr str_chars env w)
      as (res & w' & out & qs & -> & Hout & Hq & Hcases).
    cbn [fst snd]. rewrite (printed_app _ _ _ Hout), (requested_app _ _ _ Hq).
    destruct Hcases as [(Hexit & Hno & Hpre & Hrepos & _)
                       |[(r & org & targets & src & w1 & tc & ts & te & qss & _ & Hdecl' & _)
                        |(r & org & targets & reached & qss & _ & Hdecl' & _)]].
    + done.
    + congruence.
    + congruence.
Qed.

Lemma main_refuses_bad_configuration_witness :
  main plain_repr no_chars
    {| GITHUB_TOKEN := Some EmptyString; GITHUB_REPOSITORY := Some "acme/labels";
       repos_yaml := None |} (boot acme [])
  = (Raise (SystemExit 1), emit [LTokenNotSet] (boot acme []))
  ∧ exit_code (main plain_repr no_chars
                 {| GITHUB_TOKEN := Some "ghs_token";
                    GITHUB_REPOSITORY := Some "acme/labels";
                    repos_yaml := None |} (boot acme [])).1 = 1%Z.
Proof.
  split.
  - destruct (main_refuses_bad_configuration plain_repr no_chars
                {| GITHUB_TOKEN := Some EmptyString;
                   GITHUB_REPOSITORY := Some "acme/labels";
                   repos_yaml := None |} (boot acme [])) as (H & _).
    apply H. reflexivity.
  - destruct (main_refuses_bad_configuration plain_repr no_chars
                {| GITHUB_TOKEN := Some "ghs_token";
                   GITHUB_REPOSITORY := Some "acme/labels";
                   repos_yaml := None |} (boot acme [])) as (_ & _ & H).
    apply H. reflexivity.
Defined.

(** The three ways the source can fail are not handled alike.  When the
    repository cannot be fetched, the [GithubException] is caught: one
    line names the repository and the run exits through [sys.exit(1)].
    When the repository belongs to no organisation, reading
    [organization.login] raises an [AttributeError] that nothing
    catches.  When the labels cannot be listed, the [GithubException]
    escapes [main] uncaught.  In each case the exit status is 1 and
    nothing more is sent. *)
Theorem main_source_failures py_repr str_chars env w :
  unset (GITHUB_TOKEN env) = false →
  unset (GITHUB_REPOSITORY env) = false →
  let cur := default EmptyString (GITHUB_REPOSITORY env) in
  let run := main py_repr str_chars env w in
  (∀ e w1, get_repo cur w = (Raise (GithubExc e), w1) →
     run = (Raise (SystemExit 1), emit [LSourceAccessFailed cur (str_e e)] w1)
     ∧ requested w run.2 = [ReqGetRepo cur])
  ∧ (∀ source_repo w1, get_repo cur w = (Ok source_repo, w1) →
       organization source_repo = None →
       run = (Raise AttributeError, w1)
       ∧ requested w run.2 = [ReqGetRepo cur] ∧ printed w run.2 = [])
  ∧ (∀ source_repo w1 org e w2, get_repo cur w = (Ok source_repo, w1) →
       organization source_repo = Some org →
       Repository_get_labels source_repo w1 = (Raise (GithubExc e), w2) →
       run.1 = Raise (GithubExc e)
       ∧ requested w run.2 = [ReqGetRepo cur; ReqGetLabels cur]
       ∧ printed w run.2
         = [LSourceRepository (full_name source_repo); LOrganization org; LFetching])
  ∧ exit_code (Raise (SystemExit 1)) = 1%Z
  ∧ exit_code (Raise AttributeError) = 1%Z
  ∧ (∀ e, exit_code (Raise (GithubExc e)) = 1%Z).
Proof.
  intros Htok Hrepo cur run. subst run.
  assert (∀ res w1, get_repo cur w = (res, w1) → w1 = sent (ReqGetRepo cur) w) as Hsent.
  { intros res w1 H.
    destruct (get_repo_cases cur w) as [(r & _ & _ & Heq)|(e & Heq)];
      rewrite Heq in H; by inversion H. }
  split_and!; try done.
  - intros e w1 Hget. pose proof (Hsent _ _ Hget) as ->.
    unfold main. rewrite Htok, Hrepo. fold cur. unfold bind, try_except.
    rewrite Hget. split; [done|]. by apply requested_app.
  - intros source_repo w1 Hget Horg. pose proof (Hsent _ _ Hget) as ->.
    unfold main. rewrite Htok, Hrepo. fold cur. unfold bind, try_except.
    rewrite Hget, Horg. simpl. split_and!; [done | by apply requested_app |].
    apply printed_app. simpl. by rewrite app_nil_r.
  - intros source_repo w1 org e w2 Hget Horg Hfetch. pose proof (Hsent _ _ Hget) as ->.
    assert (url source_repo = cur) as Hurl.
    { destruct (get_repo_cases cur w) as [(r & _ & _ & Heq)|(e0 & Heq)];
        rewrite Heq in Hget; by inversion Hget. }
    assert (w2 = sent (ReqGetLabels cur) (sent (ReqGetRepo cur) w)) as ->.
    { destruct (get_labels_cases source_repo (sent (ReqGetRepo cur) w))
        as [(r & _ & _ & Heq)|(e0 & Heq)]; rewrite Heq in Hfetch; inversion Hfetch.
      by rewrite Hurl. }
    unfold main. rewrite Htok, Hrepo. fold cur. unfold bind, try_except.
    rewrite Hget, Horg. simpl. unfold get_labels, bind.
    rewrite !get_labels_emit, Hfetch. simpl.
    split_and!; [done | |].
    + apply requested_app. simpl. by rewrite <- app_assoc.
    + apply printed_app. simpl. by rewrite <- !app_assoc.
Qed.

Lemma main_source_failures_witness :
  (main plain_repr no_chars (ci_env (VList [VStr "svc-a"]))
     (boot acme [None; Some rate_limited])).1 = Raise (GithubExc rate_limited).
Proof.
  destruct (main_source_failures plain_repr no_chars (ci_env (VList [VStr "svc-a"]))
              (boot acme [None; Some rate_limited]) eq_refl eq_refl) as (_ & _ & H & _).
  apply (H {| url := "acme/labels"; full_name := "acme/labels";
              organization := Some "acme" |}
           (sent (ReqGetRepo "acme/labels") (boot acme [None; Some rate_limited]))
           "acme" rate_limited
           (sent (ReqGetLabels "acme/labels")
              (sent (ReqGetRepo "acme/labels") (boot acme [None; Some rate_limited]))));
    vm_compute; reflexivity.
Defined.

(** * SPDX headers *)

(** ** Splitting and joining lines *)

Lemma str_split_cons s : ∃ first rest, str_split s = first :: rest.
Proof.
  induction s as [|c s (first & rest & IH)]; simpl; [by eexists _, _|].
  case_decide; [by eexists _, _|]. rewrite IH. by eexists _, _.
Qed.

Lemma str_split_one_line s : Forall (λ l, one_line l = true) (str_split s).
Proof.
  induction s as [|c s IH]; simpl; [by repeat constructor|].
  case_decide as Hc; [by constructor|].
  destruct (str_split s) as [|h t]; inversion IH; subst.
  - repeat constructor. simpl. by rewrite bool_decide_eq_false_2.
  - constructor; [|done]. simpl. by rewrite bool_decide_eq_false_2.
Qed.

(** ["\n".join(s.split("\n")) == s] *)
Lemma str_join_split s : str_join (str_split s) = s.
Proof.
  induction s as [|c s IH]; [done|]. simpl. case_decide as Hc.
  - subst c. destruct (str_split_cons s) as (first & rest & Hs).
    rewrite Hs in IH |- *. simpl in *. by rewrite IH.
  - destruct (str_split s) as [|h [|h' t]]; simpl in *; by rewrite <- IH.
Qed.

Lemma str_split_line a b :
  one_line a = true → str_split (a +:+ String newline b) = a :: str_split b.
Proof.
  induction a as [|c a IH]; simpl.
  - done.
  - intros [Hc Ha]%andb_prop. apply negb_true_iff, bool_decide_eq_false in Hc.
    rewrite decide_False by done. by rewrite IH.
Qed.

Lemma str_split_single a : one_line a = true → str_split a = [a].
Proof.
  induction a as [|c a IH]; simpl; [done|].
  intros [Hc Ha]%andb_prop. apply negb_true_iff, bool_decide_eq_false in Hc.
  rewrite decide_False by done. by rewrite IH.
Qed.

(** ["\n".join(pieces).split("\n") == pieces] for pieces without
    newlines, when there is at least one. *)
Lemma str_split_join pieces :
  pieces ≠ [] → Forall (λ l, one_line l = true) pieces →
  str_split (str_join pieces) = pieces.
Proof.
  induction pieces as [|p [|q rest] IH]; intros Hne Hall; [done| |].
  - inversion Hall; subst. by apply str_split_single.
  - inversion Hall; subst.
    change (str_join (p :: q :: rest)) with (p +:+ String newline (str_join (q :: rest))).
    rewrite str_split_line by done. f_equal. by apply IH.
Qed.

(** ** Substrings *)

Lemma startswith_app p s : startswith (p +:+ s) p = true.
Proof. induction p as [|c p IH]; [done|]. simpl. by rewrite bool_decide_eq_true_2. Qed.

Lemma str_in_here needle s : str_in needle (needle +:+ s) = true.
Proof.
  destruct needle as [|c n]; [by destruct s|].
  change (str_in (String c n) (String c n +:+ s))
    with (startswith (String c n +:+ s) (String c n)
          || str_in (String c n) (n +:+ s)).
  by rewrite startswith_app.
Qed.

Lemma str_in_later needle a s : str_in needle s = true → str_in needle (a +:+ s) = true.
Proof.
  intros H. induction a as [|c a IH]; [done|].
  change (str_in needle (String c a +:+ s))
    with (startswith (String c (a +:+ s)) needle || str_in needle (a +:+ s)).
  rewrite IH. apply orb_true_r.
Qed.

Lemma str_app_nil_r (s : string) : s +:+ EmptyString = s.
Proof.
  induction s as [|c s IH]; [done|].
  change (String c (s +:+ EmptyString) = String c s). by rewrite IH.
Qed.

Lemma str_in_join needle pieces :
  needle ∈ pieces → str_in needle (str_join pieces) = true.
Proof.
  induction pieces as [|p [|q rest] IH]; intros Hin.
  - by apply elem_of_nil in Hin.
  - apply list_elem_of_singleton in Hin as ->. simpl.
    rewrite <- (str_app_nil_r p) at 2. apply str_in_here.
  - change (str_join (p :: q :: rest)) with (p +:+ String newline (str_join (q :: rest))).
    apply elem_of_cons in Hin as [->|Hin]; [apply str_in_here|].
    apply str_in_later.
    change (str_in needle (String newline (str_join (q :: rest))))
      with (startswith (String newline (str_join (q :: rest))) needle
            || str_in needle (str_join (q :: rest))).
    rewrite IH by done. apply orb_true_r.
Qed.

Lemma startswith_line a b n :
  one_line n = true → startswith (a +:+ String newline b) n = startswith a n.
Proof.
  revert a. induction n as [|c n IH]; intros a Hn; [done|].
  simpl in Hn. apply andb_prop in Hn as [Hc Hn].
  apply negb_true_iff, bool_decide_eq_false in Hc.
  destruct a as [|d a]; simpl.
  - by rewrite bool_decide_eq_false_2.
  - by rewrite IH.
Qed.

(** A needle without newline is in a text exactly when it is in one of
    its lines. *)
Lemma str_in_line a b n :
  one_line n = true →
  str_in n (a +:+ String newline b) = str_in n a || str_in n b.
Proof.
  intros Hn. induction a as [|d a IH].
  - change (str_in n (EmptyString +:+ String newline b))
      with (startswith (EmptyString +:+ String newline b) n || str_in n b).
    rewrite startswith_line by done. by destruct n.
  - change (str_in n (String d a +:+ String newline b))
      with (startswith (String d a +:+ String newline b) n
            || str_in n (a +:+ String newline b)).
    rewrite startswith_line, IH by done.
    change (str_in n (String d a)) with (startswith (String d a) n || str_in n a).
    by rewrite orb_assoc.
Qed.

Lemma str_in_lines n pieces :
  one_line n = true → pieces ≠ [] →
  str_in n (str_join pieces) = existsb (str_in n) pieces.
Proof.
  intros Hn. induction pieces as [|p [|q rest] IH]; intros Hne; [done| |].
  - simpl. by rewrite orb_false_r.
  - change (str_join (p :: q :: rest)) with (p +:+ String newline (str_join (q :: rest))).
    rewrite str_in_line, IH by done. done.
Qed.

Module CheckHeadersProps.
Import CheckHeaders.

(** ** [has_headers] *)

Lemma header_lines_one_line : Forall (λ l, one_line l = true) HEADER_LINES.
Proof. repeat constructor. Qed.

Lemma has_headers_lines content :
  has_headers content
  = forallb (λ header, existsb (str_in header) (take 5 (str_split content))) HEADER_LINES.
Proof.
  unfold has_headers.
  assert (take 5 (str_split content) ≠ []) as Hne.
  { destruct (str_split_cons content) as (first & rest & ->). done. }
  unfold HEADER_LINES. simpl. by rewrite !str_in_lines.
Qed.

Lemma has_headers_intro content :
  (∀ header, header ∈ HEADER_LINES → header ∈ take 5 (str_split content)) →
  has_headers content = true.
Proof.
  intros H. rewrite has_headers_lines. apply forallb_forall. intros header Hh.
  apply existsb_exists. exists header. apply list_elem_of_In in Hh.
  split; [by apply list_elem_of_In, H|].
  rewrite <- (str_app_nil_r header) at 2. apply str_in_here.
Qed.

(** [has_headers] holds exactly when each of the two header texts occurs
    inside one of the first five lines: the headers may come in any
    order and with other text around them on their line, and whatever
    follows the fifth line is not looked at. *)
Theorem has_headers_spec content :
  has_headers content = true
  ↔ ∀ header, header ∈ HEADER_LINES →
      ∃ line, line ∈ take 5 (str_split content) ∧ str_in header line = true.
Proof.
  rewrite has_headers_lines, forallb_forall. split.
  - intros H header Hh. apply list_elem_of_In in Hh.
    specialize (H header Hh). apply existsb_exists in H as (line & Hl & Hin).
    exists line. by rewrite list_elem_of_In.
  - intros H header Hh. apply list_elem_of_In in Hh.
    destruct (H header Hh) as (line & Hl & Hin).
    apply existsb_exists. exists line. by rewrite <- list_elem_of_In.
Qed.

(** ** The text [add_headers] writes *)

(** The lines of the new text are the old lines with the two headers
    and an empty line put in front, or, when the first line is a
    shebang, put right after it: the shebang stays first and no line of
    the file is lost or changed. *)
Lemma with_headers_split content :
  ∃ first rest,
    str_split content = first :: rest
    ∧ str_split (with_headers content)
      = if startswith first "#!"
        then first :: HEADER_LINES ++ EmptyString :: rest
        else HEADER_LINES ++ EmptyString :: first :: rest.
Proof.
  destruct (str_split_cons content) as (first & rest & Hs).
  exists first, rest. split; [done|].
  pose proof (str_split_one_line content) as Hall. rewrite Hs in Hall.
  unfold with_headers. rewrite Hs. destruct (startswith first "#!").
  - apply str_split_join; [done|]. inversion Hall; subst.
    constructor; [done|]. apply Forall_app. split; [apply header_lines_one_line|].
    by constructor.
  - unfold HEADER_LINES.
    change (str_join (_ ++ _ ++ [content]))
      with ("# SPDX-License-Identifier: Apache-2.0"
            +:+ String newline
              ("# Copyright (C) 2025, The Spine Docs organization and its contributors."
               +:+ String newline (EmptyString +:+ String newline content))).
    by rewrite !str_split_line, Hs by done.
Qed.

(** Whatever the file held, the text written passes [has_headers]. *)
Lemma with_headers_has_headers content : has_headers (with_headers content) = true.
Proof.
  apply has_headers_intro. intros header Hh.
  destruct (with_headers_split content) as (first & rest & _ & ->).
  unfold HEADER_LINES in *. destruct (startswith first "#!"); simpl.
  - apply elem_of_cons in Hh as [->|Hh]; [right; by left|].
    apply list_elem_of_singleton in Hh as ->. do 2 right. by left.
  - apply elem_of_cons in Hh as [->|Hh]; [by left|].
    apply list_elem_of_singleton in Hh as ->. right. by left.
Qed.

(** ** [add_headers] *)

Lemma read_text_say filepath line d : read_text filepath (say line d) = read_text filepath d.
Proof. done. Qed.

(** [add_headers] in one equation: it rewrites the file exactly when the
    file can be read and written and fails [has_headers], and then only
    that file changes; otherwise the disk keeps its files and at most a
    line is printed. *)
Lemma add_headers_spec filepath d :
  ∃ d',
    add_headers filepath d = (needs_fix d filepath, d')
    ∧ missing d' = missing d
    ∧ files d'
      = match files d !! filepath with
        | Some f => if fixable f then <[filepath := fixed f]> (files d) else files d
        | None => files d
        end
    ∧ (needs_fix d filepath = true → printed_text d' = printed_text d).
Proof.
  unfold add_headers, needs_fix, read_text, write_text, fixable, fixed.
  destruct (files d !! filepath) as [[text rerr werr]|] eqn:Hf; simpl.
  - destruct rerr as [e|]; simpl; [by eexists|].
    destruct (has_headers text); simpl.
    + rewrite andb_false_r. by eexists.
    + destruct werr as [e|]; simpl; by eexists.
  - by eexists.
Qed.

Lemma add_headers_rewrites filepath d f :
  files d !! filepath = Some f →
  read_error f = None → write_error f = None →
  has_headers (content f) = false →
  ∃ d',
    add_headers filepath d = (true, d')
    ∧ files d' = <[filepath := fixed f]> (files d)
    ∧ missing d' = missing d
    ∧ printed_text d' = printed_text d
    ∧ read_text filepath d' = inl (with_headers (content f)).
Proof.
  intros Hf Hr Hw Hh.
  destruct (add_headers_spec filepath d) as (d' & Hrun & Hm & Hfiles & Hout).
  assert (fixable f = true) as Hfix by (unfold fixable; by rewrite Hr, Hw, Hh).
  assert (needs_fix d filepath = true) as Hneed by (unfold needs_fix; by rewrite Hf).
  rewrite Hneed in Hrun. rewrite Hf, Hfix in Hfiles.
  exists d'. split_and!; [done | done | done | by apply Hout |].
  unfold read_text. rewrite Hfiles, lookup_insert_eq. simpl. by rewrite Hr.
Qed.

(** A file that can be read and written and lacks the headers is
    rewritten with [with_headers] of its text; nothing is printed, no
    other file changes, and the file then passes both [has_headers] and
    [check_file]. *)
Theorem add_headers_fixes filepath d f :
  files d !! filepath = Some f →
  read_error f = None → write_error f = None →
  has_headers (content f) = false →
  ∃ d' new_content,
    add_headers filepath d = (true, d')
    ∧ read_text filepath d' = inl new_content
    ∧ has_headers new_content = true
    ∧ (∀ other, other ≠ filepath → files d' !! other = files d !! other)
    ∧ printed_text d' = printed_text d
    ∧ check_file filepath d' = (true, d').
Proof.
  intros Hf Hr Hw Hh.
  destruct (add_headers_rewrites filepath d f Hf Hr Hw Hh)
    as (d' & Hrun & Hfiles & _ & Hout & Hread).
  exists d', (with_headers (content f)).
  split_and!; [done | done | apply with_headers_has_headers | | done |].
  - intros other Hne. by rewrite Hfiles, lookup_insert_ne.
  - unfold check_file. by rewrite Hread, with_headers_has_headers.
Qed.

Lemma add_headers_fixes_witness :
  ∃ d' new_content,
    add_headers "tool.sh" sample_disk = (true, d')
    ∧ read_text "tool.sh" d' = inl new_content
    ∧ has_headers new_content = true
    ∧ (∀ other, other ≠ "tool.sh" → files d' !! other = files sample_disk !! other)
    ∧ printed_text d' = printed_text sample_disk
    ∧ check_file "tool.sh" d' = (true, d').
Proof.
  apply (add_headers_fixes "tool.sh" sample_disk (plain_file sample_script));
    vm_compute; reflexivity.
Defined.

(** The rewritten file keeps every line it had: its lines are the old
    ones with the two headers and an empty line put in front, or, when
    the first line is a shebang, put right after that line, which stays
    first. *)
Theorem add_headers_keeps_lines filepath d f :
  files d !! filepath = Some f →
  read_error f = None → write_error f = None →
  has_headers (content f) = false →
  ∃ new_content first rest,
    read_text filepath (add_headers filepath d).2 = inl new_content
    ∧ str_split (content f) = first :: rest
    ∧ str_split new_content
      = if startswith first "#!"
        then first :: HEADER_LINES ++ EmptyString :: rest
        else HEADER_LINES ++ EmptyString :: first :: rest.
Proof.
  intros Hf Hr Hw Hh.
  destruct (add_headers_rewrites filepath d f Hf Hr Hw Hh) as (d' & -> & _ & _ & _ & Hread).
  destruct (with_headers_split (content f)) as (first & rest & Hs & Hnew).
  exists (with_headers (content f)), first, rest. by split_and!.
Qed.

Lemma add_headers_keeps_lines_witness :
  ∃ new_content first rest,
    read_text "tool.sh" (add_headers "tool.sh" sample_disk).2 = inl new_content
    ∧ str_split sample_script = first :: rest
    ∧ str_split new_content
      = if startswith first "#!"
        then first :: HEADER_LINES ++ EmptyString :: rest
        else HEADER_LINES ++ EmptyString :: first :: rest.
Proof.
  apply (add_headers_keeps_lines "tool.sh" sample_disk (plain_file sample_script));
    vm_compute; reflexivity.
Defined.

Lemma fixed_not_fixable f : fixable (fixed f) = false.
Proof.
  unfold fixable, fixed. simpl. rewrite with_headers_has_headers. apply andb_false_r.
Qed.

(** Applying [add_headers] again never rewrites: whatever the disk, the
    second call on the same path returns [False] and leaves every file
    as the first call left it. *)
Theorem add_headers_settles filepath d :
  let once := add_headers filepath d in
  let twice := add_headers filepath once.2 in
  twice.1 = false ∧ files twice.2 = files once.2.
Proof.
  intros once twice. subst once twice.
  destruct (add_headers_spec filepath d) as (d1 & -> & _ & Hfiles1 & _).
  cbn [fst snd].
  destruct (add_headers_spec filepath d1) as (d2 & -> & _ & Hfiles2 & _).
  cbn [fst snd].
  assert (needs_fix d1 filepath = false) as Hdone.
  { unfold needs_fix. rewrite Hfiles1.
    destruct (files d !! filepath) as [f|] eqn:Hf; [|by rewrite Hf].
    destruct (fixable f) eqn:Hfix.
    - rewrite lookup_insert_eq. apply fixed_not_fixable.
    - by rewrite Hf. }
  split; [done|]. rewrite Hfiles2. unfold needs_fix in Hdone.
  destruct (files d1 !! filepath) as [f1|]; [|done]. simpl in Hdone. by rewrite Hdone.
Qed.

(** ** [main], check mode *)

Lemma say_all_spec lines d :
  files (say_all lines d) = files d
  ∧ missing (say_all lines d) = missing d
  ∧ printed_text (say_all lines d) = printed_text d ++ lines.
Proof.
  revert d. induction lines as [|l lines IH]; intros d; simpl.
  - by rewrite app_nil_r.
  - destruct (IH (say l d)) as (-> & -> & ->). simpl. by rewrite <- app_assoc.
Qed.

Lemma passes_ext d d' filepath :
  files d' = files d → missing d' = missing d → passes d' filepath = passes d filepath.
Proof. intros Hf Hm. unfold passes, read_text. by rewrite Hf, Hm. Qed.

Lemma check_file_spec filepath d :
  ∃ d', check_file filepath d = (passes d filepath, d')
        ∧ files d' = files d ∧ missing d' = missing d.
Proof.
  unfold check_file, passes. destruct (read_text filepath d); by eexists.
Qed.

Lemma check_files_spec filepaths : ∀ acc d,
  ∃ d', check_files filepaths acc d
        = (acc ++ filter (λ p, passes d p = false) filepaths, d')
        ∧ files d' = files d ∧ missing d' = missing d.
Proof.
  induction filepaths as [|p rest IH]; intros acc d; simpl.
  - exists d. by rewrite app_nil_r.
  - destruct (check_file_spec p d) as (d1 & -> & Hf1 & Hm1).
    destruct (IH (if passes d p then acc else acc ++ [p]) d1) as (d' & -> & Hf & Hm).
    exists d'. split_and!; [|congruence..].
    f_equal. rewrite (list_filter_iff (λ q, passes d1 q = false) (λ q, passes d q = false))
      by (intros q; by rewrite (passes_ext d d1)).
    destruct (passes d p) eqn:Hp.
    + by rewrite filter_cons_False by congruence.
    + by rewrite filter_cons_True, <- app_assoc by done.
Qed.

Lemma check_mode_zero filepaths d :
  Forall (λ p, passes d p = true) filepaths →
  (main {| arg_files := filepaths; arg_fix := false |} d).1 = 0%Z.
Proof.
  intros Hall. unfold main. cbn [arg_fix arg_files].
  destruct (check_files_spec filepaths [] d) as (d1 & -> & _).
  rewrite app_nil_l.
  destruct (filter (λ p, passes d p = false) filepaths) as [|bad more] eqn:Hbad; [done|].
  assert (bad ∈ filter (λ p, passes d p = false) filepaths) as Hin
    by (rewrite Hbad; by left).
  apply list_elem_of_filter in Hin as [Hfail Hin].
  rewrite Forall_forall in Hall. specialize (Hall bad Hin). congruence.
Qed.

(** In check mode [main] returns 0 when every listed file can be read
    and has the headers, and 1 otherwise (a file that cannot be read
    counts as missing its headers); every failing file is listed in the
    output, and no file is changed. *)
Theorem check_mode_exit filepaths d :
  let run := main {| arg_files := filepaths; arg_fix := false |} d in
  (run.1 = 0%Z ↔ Forall (λ p, passes d p = true) filepaths)
  ∧ (run.1 = 0%Z ∨ run.1 = 1%Z)
  ∧ files run.2 = files d
  ∧ (∀ p, p ∈ filepaths → passes d p = false → ("  - " +:+ p) ∈ printed_text run.2).
Proof.
  intros run. subst run. unfold main. cbn [arg_fix arg_files].
  destruct (check_files_spec filepaths [] d) as (d1 & -> & Hf & Hm).
  rewrite app_nil_l.
  assert (∀ p, p ∈ filepaths → passes d p = false →
               p ∈ filter (λ p, passes d p = false) filepaths) as Hin.
  { intros p Hp Hpass. by apply list_elem_of_filter. }
  destruct (filter (λ p, passes d p = false) filepaths) as [|bad more] eqn:Hbad.
  - cbn [fst snd]. split_and!; [|by left|done|].
    + split; [intros _|done]. apply Forall_forall. intros p Hp.
      destruct (passes d p) eqn:Hpass; [done|].
      pose proof (Hin p Hp Hpass) as Hp'. by apply elem_of_nil in Hp'.
    + intros p Hp Hpass. pose proof (Hin p Hp Hpass) as Hp'. by apply elem_of_nil in Hp'.
  - cbn [fst snd].
    set (listing := (λ f, "  - " +:+ f) <$> bad :: more).
    set (d2 := say _ d1).
    set (d3 := say _ (say_all listing d2)).
    destruct (say_all_spec ((λ header, "  " +:+ header) <$> HEADER_LINES) d3)
      as (-> & _ & ->).
    destruct (say_all_spec listing d2) as (Hf3 & _ & Hp3).
    split_and!; [|by right| |].
    + split; [done|]. intros Hall.
      assert (bad ∈ filter (λ p, passes d p = false) filepaths) as Hbad'
        by (rewrite Hbad; by left).
      apply list_elem_of_filter in Hbad' as [Hfail Hbad'].
      rewrite Forall_forall in Hall. specialize (Hall bad Hbad'). congruence.
    + change (files d3) with (files (say_all listing d2)). by rewrite Hf3.
    + intros p Hp Hpass.
      change (printed_text d3)
        with (printed_text (say_all listing d2)
              ++ [String newline "Required headers (at top of file):"]).
      rewrite Hp3, !elem_of_app. left. left. right.
      by apply list_elem_of_fmap_2, Hin.
Qed.

(** ** [main], fix mode *)

(** A file that can be read and written. *)
Local Notation "'usable'" :=
  (λ (d : Disk) (p : string),
     ∃ f, files d !! p = Some f ∧ read_error f = None ∧ write_error f = None)
  (only parsing).

Lemma add_headers_after filepath d :
  let d' := (add_headers filepath d).2 in
  (∀ q, needs_fix d' q = if bool_decide (q = filepath) then false else needs_fix d q)
  ∧ (∀ q, usable d q → usable d' q)
  ∧ (needs_fix d filepath = false → files d' = files d)
  ∧ missing d' = missing d.
Proof.
  intros d'. subst d'.
  destruct (add_headers_spec filepath d) as (d' & -> & Hm & Hfiles & _). cbn [fst snd].
  unfold needs_fix. rewrite Hfiles. clear Hfiles.
  destruct (files d !! filepath) as [f|] eqn:Hf.
  - destruct (fixable f) eqn:Hfix.
    + split_and!; [| |simpl; congruence|done].
      * intros q. case_bool_decide as Hq.
        -- subst q. rewrite lookup_insert_eq. apply fixed_not_fixable.
        -- by rewrite lookup_insert_ne.
      * intros q (g & Hg & Hr & Hw). destruct (decide (q = filepath)) as [->|Hq].
        -- rewrite lookup_insert_eq. exists (fixed f). split_and!; [done| |done].
           simpl. congruence.
        -- rewrite lookup_insert_ne by done. eauto.
    + split_and!; try done. intros q. case_bool_decide as Hq; [|done].
      subst q. by rewrite Hf.
  - split_and!; try done. intros q. case_bool_decide as Hq; [|done].
    subst q. by rewrite Hf.
Qed.

Lemma fix_files_spec filepaths : ∀ acc d,
  ∃ modified d',
    fix_files filepaths acc d = (acc ++ modified, d')
    ∧ (modified = [] ↔ Forall (λ p, needs_fix d p = false) filepaths)
    ∧ (∀ q, needs_fix d' q = if bool_decide (q ∈ filepaths) then false else needs_fix d q)
    ∧ (∀ q, usable d q → usable d' q)
    ∧ (Forall (λ p, needs_fix d p = false) filepaths → files d' = files d)
    ∧ missing d' = missing d.
Proof.
  induction filepaths as [|p rest IH]; intros acc d.
  - exists [], d. simpl. rewrite app_nil_r. split_and!; try done.
  - simpl. destruct (add_headers_spec p d) as (d1 & Hrun & _).
    pose proof (add_headers_after p d) as (Hneed & Huse & Hsame & Hm).
    rewrite Hrun in Hneed, Huse, Hsame, Hm |- *. cbn [fst snd] in *.
    destruct (IH (if needs_fix d p then acc ++ [p] else acc) d1)
      as (modified & d' & -> & Hnil & Hneed' & Huse' & Hsame' & Hm').
    assert (∀ q, needs_fix d' q
                 = if bool_decide (q ∈ p :: rest) then false else needs_fix d q) as Hafter.
    { intros q. rewrite Hneed', Hneed.
      destruct (decide (q = p)) as [->|Hq].
      - rewrite (bool_decide_eq_true_2 (p ∈ p :: rest)) by by left.
        rewrite (bool_decide_eq_true_2 (p = p)) by done. by case_bool_decide.
      - rewrite (bool_decide_eq_false_2 (q = p)) by done.
        destruct (decide (q ∈ rest)) as [Hin|Hin].
        + rewrite !bool_decide_eq_true_2; [done | by right | done].
        + rewrite !bool_decide_eq_false_2; [done | | done].
          by intros [?|?]%elem_of_cons. }
    destruct (needs_fix d p) eqn:Hp.
    + exists (p :: modified), d'. rewrite <- app_assoc.
      split_and!; [done| |done|by auto| |congruence].
      * split; [done|]. intros Hall. inversion Hall; congruence.
      * intros Hall. inversion Hall; congruence.
    + assert (∀ q, needs_fix d1 q = needs_fix d q) as Heq.
      { intros q. rewrite Hneed. case_bool_decide; [by subst|done]. }
      exists modified, d'. split_and!; [done| |done|by auto| |congruence].
      * rewrite Hnil. rewrite Forall_cons. split.
        -- intros Hall. split; [done|]. eapply Forall_impl; [exact Hall|].
           intros q. cbv beta. by rewrite Heq.
        -- intros [_ Hall]. eapply Forall_impl; [exact Hall|].
           intros q. cbv beta. by rewrite Heq.
      * intros Hall. inversion Hall; subst. rewrite Hsame', Hsame; [done|done|].
        eapply Forall_impl; [eassumption|]. intros q. cbv beta. by rewrite Heq.
Qed.

Lemma fix_mode_run filepaths d :
  ∃ modified d1,
    fix_files filepaths [] d = (modified, d1)
    ∧ (main {| arg_files := filepaths; arg_fix := true |} d).1
      = (if modified is [] then 0%Z else 1%Z)
    ∧ files (main {| arg_files := filepaths; arg_fix := true |} d).2 = files d1
    ∧ missing (main {| arg_files := filepaths; arg_fix := true |} d).2 = missing d1.
Proof.
  unfold main. cbn [arg_fix arg_files].
  destruct (fix_files filepaths [] d) as [modified d1]. exists modified, d1.
  destruct modified as [|m more]; [done|]. cbn [fst snd].
  set (d2 := say _ d1).
  destruct (say_all_spec ((λ f, "  - " +:+ f) <$> m :: more) d2) as (-> & -> & _).
  done.
Qed.

Lemma fix_files_keeps_others filepaths acc d modified d' q :
  q ∉ filepaths →
  fix_files filepaths acc d = (modified, d') →
  files d' !! q = files d !! q.
Proof.
  revert acc d. induction filepaths as [|p rest IH]; intros acc d Hq Hfix; simpl in Hfix.
  - by injection Hfix as _ <-.
  - apply not_elem_of_cons in Hq as [Hqp Hq].
    destruct (add_headers_spec p d) as (d0 & Hadd & _ & Hfiles & _).
    rewrite Hadd in Hfix. rewrite (IH _ _ Hq Hfix), Hfiles.
    destruct (files d !! p) as [f|]; [|done].
    destruct (fixable f); [|done]. by rewrite lookup_insert_ne.
Qed.

Lemma fix_mode_after filepaths d :
  let run := main {| arg_files := filepaths; arg_fix := true |} d in
  (run.1 = (if bool_decide (Forall (λ p, needs_fix d p = false) filepaths)
            then 0%Z else 1%Z))
  ∧ (∀ q, needs_fix run.2 q = if bool_decide (q ∈ filepaths) then false else needs_fix d q)
  ∧ (∀ q, usable d q → usable run.2 q)
  ∧ (Forall (λ p, needs_fix d p = false) filepaths → files run.2 = files d).
Proof.
  intros run. subst run.
  destruct (fix_mode_run filepaths d) as (modified & d1 & Hrun & -> & Hf & Hm).
  destruct (fix_files_spec filepaths [] d)
    as (modified' & d1' & Hrun' & Hnil & Hneed & Huse & Hsame & _).
  rewrite Hrun, app_nil_l in Hrun'. injection Hrun' as <- <-.
  split_and!.
  - case_bool_decide as Hall.
    + apply Hnil in Hall. by subst.
    + destruct modified; [|done]. destruct Hall. by apply Hnil.
  - intros q. unfold needs_fix at 1. rewrite Hf. apply Hneed.
  - intros q Hq. rewrite Hf. by apply Huse.
  - intros Hall. rewrite Hf. by apply Hsame.
Qed.

(** In fix mode [main] returns 1 when it rewrote at least one listed
    file, which happens exactly when the list holds a file that can be
    read and written and lacks the headers, and 0 otherwise: so a file
    that cannot be read or written does not make the run fail.
    Afterwards no listed file is left to rewrite, and the files that
    were not listed are as they were. *)
Theorem fix_mode_exit filepaths d :
  let run := main {| arg_files := filepaths; arg_fix := true |} d in
  (run.1 = 0%Z ↔ Forall (λ p, needs_fix d p = false) filepaths)
  ∧ (run.1 = 0%Z ∨ run.1 = 1%Z)
  ∧ (∀ p, p ∈ filepaths → needs_fix run.2 p = false)
  ∧ (∀ q, q ∉ filepaths → files run.2 !! q = files d !! q).
Proof.
  intros run. subst run.
  pose proof (fix_mode_after filepaths d) as (Hexit & Hneed & _ & _).
  destruct (fix_mode_run filepaths d) as (modified & d1 & Hrun & _ & Hf & _).
  split_and!.
  - rewrite Hexit. case_bool_decide; split; done.
  - rewrite Hexit. case_bool_decide; [by left | by right].
  - intros p Hp. by rewrite Hneed, bool_decide_eq_true_2.
  - intros q Hq. rewrite Hf. by apply (fix_files_keeps_others _ _ _ _ _ _ Hq Hrun).
Qed.

(** Fix mode settles: run again on the disk it left, [main --fix]
    returns 0 and changes no file. *)
Theorem fix_mode_settles filepaths d :
  let once := main {| arg_files := filepaths; arg_fix := true |} d in
  let twice := main {| arg_files := filepaths; arg_fix := true |} once.2 in
  twice.1 = 0%Z ∧ files twice.2 = files once.2.
Proof.
  intros once twice. subst once twice.
  set (d1 := (main {| arg_files := filepaths; arg_fix := true |} d).2).
  pose proof (fix_mode_after filepaths d) as (_ & Hneed & _). fold d1 in Hneed.
  assert (Forall (λ p, needs_fix d1 p = false) filepaths) as Hall.
  { apply Forall_forall. intros p Hp. by rewrite Hneed, bool_decide_eq_true_2. }
  pose proof (fix_mode_after filepaths d1) as (Hexit & _ & _ & Hsame).
  split; [by rewrite Hexit, bool_decide_eq_true_2 | by apply Hsame].
Qed.

(** Fix, then check: when every listed file can be read and written,
    the check that follows [main --fix] returns 0. *)
Theorem fix_then_check filepaths d :
  (∀ p, p ∈ filepaths →
        ∃ f, files d !! p = Some f ∧ read_error f = None ∧ write_error f = None) →
  (main {| arg_files := filepaths; arg_fix := false |}
     (main {| arg_files := filepaths; arg_fix := true |} d).2).1 = 0%Z.
Proof.
  intros Husable.
  set (d1 := (main {| arg_files := filepaths; arg_fix := true |} d).2).
  pose proof (fix_mode_after filepaths d) as (_ & Hneed & Huse & _).
  fold d1 in Hneed, Huse.
  apply check_mode_zero, Forall_forall. intros p Hp.
  destruct (Huse p (Husable p Hp)) as (f & Hfile & Hr & Hw).
  specialize (Hneed p). rewrite bool_decide_eq_true_2 in Hneed by done.
  unfold needs_fix, passes, read_text, fixable in *.
  rewrite Hfile in Hneed |- *. simpl in Hneed. rewrite Hr.
  rewrite Hr, Hw in Hneed. simpl in Hneed. by apply negb_false_iff in Hneed.
Qed.

Lemma fix_then_check_witness :
  (main {| arg_files := ["tool.sh"; "COMMIT_EDITMSG"]; arg_fix := false |}
     (main {| arg_files := ["tool.sh"; "COMMIT_EDITMSG"]; arg_fix := true |}
        sample_disk).2).1 = 0%Z.
Proof.
  apply (fix_then_check ["tool.sh"; "COMMIT_EDITMSG"] sample_disk).
  intros p Hp. apply elem_of_cons in Hp as [->|Hp].
  - exists (plain_file sample_script). vm_compute. done.
  - apply list_elem_of_singleton in Hp as ->.
    exists (plain_file sample_message). vm_compute. done.
Defined.

End CheckHeadersProps.

(** * DCO sign-off *)

Lemma one_line_app a b : one_line (a +:+ b) = one_line a && one_line b.
Proof.
  induction a as [|c a IH]; [done|].
  change (one_line (String c a +:+ b))
    with (negb (bool_decide (c = newline)) && one_line (a +:+ b)).
  rewrite IH. simpl. by rewrite andb_assoc.
Qed.

Lemma str_app_assoc (a b c : string) : (a +:+ b) +:+ c = a +:+ (b +:+ c).
Proof.
  induction a as [|x a IH]; [done|].
  change (String x ((a +:+ b) +:+ c) = String x (a +:+ (b +:+ c))). by rewrite IH.
Qed.

Module CheckDcoProps.
Import CheckDco.

(** ** Matching stays within a line *)

Lemma match_here_line l rest atoms :
  clean atoms → one_line l = true →
  match_here (l +:+ String newline rest) atoms = match_here l atoms.
Proof.
  intros Hclean. revert atoms Hclean. induction l as [|c l IH]; intros atoms Hclean Hl.
  - destruct atoms as [|[a|] atoms]; simpl; [done| |done].
    inversion Hclean; subst. by rewrite bool_decide_eq_false_2.
  - simpl in Hl. apply andb_prop in Hl as [Hc Hl].
    destruct atoms as [|[a|] atoms].
    + simpl. apply negb_true_iff in Hc. by rewrite Hc.
    + inversion Hclean; subst. simpl. by rewrite IH.
    + inversion Hclean; subst. simpl. by rewrite !IH.
Qed.

Lemma match_here_whole_line s atoms first rest :
  clean atoms → str_split s = first :: rest →
  match_here s atoms = match_here first atoms.
Proof.
  intros Hclean Hs. pose proof (str_join_split s) as Hj. rewrite Hs in Hj.
  pose proof (str_split_one_line s) as Hall. rewrite Hs in Hall. inversion Hall; subst.
  destruct rest as [|second rest]; [done|].
  change (str_join (first :: second :: rest))
    with (first +:+ String newline (str_join (second :: rest))).
  by apply match_here_line.
Qed.

(** A search over the text is a search line by line. *)
Lemma search_lines atoms s :
  clean atoms →
  search atoms true s = existsb (λ l, match_here l atoms) (str_split s)
  ∧ search atoms false s = existsb (λ l, match_here l atoms) (tail (str_split s)).
Proof.
  intros Hclean. induction s as [|c s [IHt IHf]]; [simpl; split; reflexivity|].
  destruct (str_split_cons (String c s)) as (first & rest & Hs).
  rewrite Hs. cbn [existsb tail].
  change (search atoms true (String c s))
    with (match_here (String c s) atoms || search atoms (bool_decide (c = newline)) s).
  change (search atoms false (String c s))
    with (search atoms (bool_decide (c = newline)) s).
  rewrite (match_here_whole_line _ _ _ _ Hclean Hs).
  simpl in Hs. case_decide as Hc.
  - rewrite bool_decide_eq_true_2 by done. injection Hs as <- <-. by rewrite IHt.
  - rewrite bool_decide_eq_false_2 by done.
    destruct (str_split s) as [|h t]; injection Hs as <- <-; by rewrite IHf.
Qed.

(** ** What a line must look like *)

Lemma match_here_end s : one_line s = true → match_here s [] = true ↔ s = EmptyString.
Proof.
  destruct s as [|c s]; [done|]. simpl. intros [Hc _]%andb_prop.
  apply negb_true_iff in Hc. by rewrite Hc.
Qed.

Lemma match_here_lits p s atoms :
  match_here s (lits p ++ atoms) = true
  ↔ ∃ s', s = p +:+ s' ∧ match_here s' atoms = true.
Proof.
  revert s. induction p as [|c p IH]; intros s.
  - simpl. split; [by exists s | by intros (s' & -> & ?)].
  - destruct s as [|d s]; simpl.
    + split; [done | by intros (s' & ? & _)].
    + rewrite andb_true_iff, bool_decide_eq_true, IH. split.
      * intros (-> & s' & -> & H). by exists s'.
      * intros (s' & [= -> ->] & H). eauto.
Qed.

Lemma match_here_any s atoms :
  match_here s (AnyPlus :: atoms) = true
  ↔ ∃ a s', a ≠ EmptyString ∧ one_line a = true ∧ s = a +:+ s'
            ∧ match_here s' atoms = true.
Proof.
  induction s as [|c s IH]; simpl.
  - split; [done|]. intros (a & s' & Ha & _ & Hs & _). by destruct a.
  - rewrite andb_true_iff, negb_true_iff, bool_decide_eq_false, orb_true_iff, IH. split.
    + intros (Hc & [H|(a & s' & Ha & Hla & -> & H)]).
      * exists (String c EmptyString), s. split_and!; try done.
        simpl. by rewrite bool_decide_eq_false_2.
      * exists (String c a), s'. split_and!; try done.
        simpl. by rewrite bool_decide_eq_false_2.
    + intros (a & s' & Ha & Hla & Hs & H). destruct a as [|c' a]; [done|].
      injection Hs as -> ->. simpl in Hla. apply andb_prop in Hla as [Hc Hla].
      apply negb_true_iff, bool_decide_eq_false in Hc. split; [done|].
      destruct a as [|c'' a]; [by left|]. right. exists (String c'' a), s'. done.
Qed.

Lemma pattern_clean : clean pattern.
Proof. unfold clean, pattern. simpl. repeat constructor; by vm_compute. Qed.

(** A line matches the pattern exactly when it is a sign-off line. *)
Lemma match_here_pattern line :
  one_line line = true → match_here line pattern = true ↔ sign_off line.
Proof.
  intros Hline. unfold pattern, sign_off.
  rewrite match_here_lits. split.
  - intros (s1 & -> & H). apply match_here_any in H as (name & s2 & Hn & _ & -> & H).
    apply match_here_lits in H as (s3 & -> & H).
    apply match_here_any in H as (local & s4 & Hl & _ & -> & H).
    apply match_here_lits in H as (s5 & -> & H).
    apply match_here_any in H as (domain & s6 & Hd & _ & -> & H).
    apply (match_here_lits ">" _ []) in H as (s7 & -> & H).
    rewrite !one_line_app, !andb_true_iff in Hline.
    apply match_here_end in H as ->;
      [|by destruct Hline as (_ & _ & _ & _ & _ & _ & _ & ?)].
    exists name, local, domain. done.
  - intros (name & local & domain & Hn & Hl & Hd & ->).
    rewrite !one_line_app, !andb_true_iff in Hline.
    destruct Hline as (_ & Hname & _ & Hlocal & _ & Hdomain & _).
    eexists. split; [done|].
    apply match_here_any. exists name. eexists. split_and!; [done..|].
    apply match_here_lits. eexists. split; [done|].
    apply match_here_any. exists local. eexists. split_and!; [done..|].
    apply match_here_lits. eexists. split; [done|].
    apply match_here_any. exists domain. eexists. split_and!; [done..|].
    apply (match_here_lits ">" _ []). by exists EmptyString.
Qed.

(** ** [check_dco] and [main] *)

Lemma search_pattern_spec message :
  search pattern true message = true
  ↔ ∃ line, line ∈ str_split message ∧ sign_off line.
Proof.
  destruct (search_lines pattern message pattern_clean) as [-> _].
  rewrite existsb_exists.
  pose proof (str_split_one_line message) as Hall. rewrite Forall_forall in Hall.
  split.
  - intros (line & Hin & Hm). apply list_elem_of_In in Hin. exists line.
    split; [done|]. apply match_here_pattern; [by apply Hall | done].
  - intros (line & Hin & Hs). exists line.
    split; [by apply list_elem_of_In|]. apply match_here_pattern; [by apply Hall | done].
Qed.

Lemma check_dco_reads commit_msg_file d :
  (check_dco commit_msg_file d).1 = true
  ↔ ∃ message line,
      read_text commit_msg_file d = inl message
      ∧ line ∈ str_split message ∧ sign_off line.
Proof.
  unfold check_dco. destruct (read_text commit_msg_file d) as [message|e]; simpl.
  - rewrite search_pattern_spec. split.
    + intros (line & Hin & Hs). by exists message, line.
    + intros (message' & line & [= <-] & Hin & Hs). by exists line.
  - split; [done|]. by intros (message & line & ? & _).
Qed.

(** [check_dco] answers [True] exactly when the file can be read and one
    of the lines of the message is, from its first to its last
    character, [Signed-off-by: NAME <LOCAL@DOMAIN>] with the three parts
    not empty; a file that cannot be read gives [False].  No file is
    changed. *)
Theorem check_dco_spec commit_msg_file d :
  ((check_dco commit_msg_file d).1 = true
   ↔ ∃ message line,
       read_text commit_msg_file d = inl message
       ∧ line ∈ str_split message ∧ sign_off line)
  ∧ files (check_dco commit_msg_file d).2 = files d.
Proof.
  split; [apply check_dco_reads|].
  unfold check_dco. by destruct (read_text commit_msg_file d).
Qed.

Lemma check_dco_spec_witness : (check_dco "COMMIT_EDITMSG" sample_disk).1 = true.
Proof.
  apply (check_dco_spec "COMMIT_EDITMSG" sample_disk).
  exists sample_message, "Signed-off-by: Ada Lovelace <ada@example.org>".
  split_and!.
  - vm_compute. reflexivity.
  - vm_compute. do 2 right. left.
  - exists "Ada Lovelace", "ada", "example.org". split_and!; done.
Defined.

(** The script returns 0 when the message has a sign-off line and 1
    otherwise, a message that cannot be read included; it changes no
    file. *)
Theorem dco_main_exit commit_msg_file d :
  let run := main commit_msg_file d in
  (run.1 = 0%Z
   ↔ ∃ message line,
       read_text commit_msg_file d = inl message
       ∧ line ∈ str_split message ∧ sign_off line)
  ∧ (run.1 = 0%Z ∨ run.1 = 1%Z)
  ∧ files run.2 = files d.
Proof.
  intros run. subst run.
  pose proof (check_dco_reads commit_msg_file d) as Hspec.
  assert (files (check_dco commit_msg_file d).2 = files d) as Hfiles
    by (unfold check_dco; by destruct (read_text commit_msg_file d)).
  unfold main. destruct (check_dco commit_msg_file d) as [[] d1]; cbn [fst snd] in *.
  - split_and!; [|by left|done]. split; [intros _; by apply Hspec | done].
  - split_and!; [|by right|done]. split; [done|]. intros H. by apply Hspec in H.
Qed.

Lemma dco_main_exit_witness : (main "COMMIT_EDITMSG" sample_disk).1 = 0%Z.
Proof.
  apply (dco_main_exit "COMMIT_EDITMSG" sample_disk).
  exists sample_message, "Signed-off-by: Ada Lovelace <ada@example.org>".
  split_and!.
  - vm_compute. reflexivity.
  - vm_compute. do 2 right. left.
  - exists "Ada Lovelace", "ada", "example.org". split_and!; done.
Defined.

End CheckDcoProps.

